(** * resolv: circle collision tests and the Space container

    A shallow embedding of [resolv/circle.go] (type [Circle] and its
    methods) and of the Space container (type [Space] and its methods).
    Shapes live in a heap indexed by references, since the Go code
    compares Shapes by identity and moves them in place. *)

From Stdlib Require Import ZArith Lia List Bool Floats Uint63.
From stdpp Require Import gmap list.
Import ListNotations.

Local Open Scope Z_scope.

(** ** int32 arithmetic *)

Module Int32.

Definition min_int : Z := - 2 ^ 31.
Definition max_int : Z := 2 ^ 31 - 1.

(** The values of Go's [int32]. *)
Definition in_range (z : Z) : Prop := min_int <= z <= max_int.

(** Two's-complement wrap-around of an exact result. *)
Definition wrap (z : Z) : Z := (z + 2 ^ 31) mod 2 ^ 32 - 2 ^ 31.

Definition add (a b : Z) : Z := wrap (a + b).
Definition sub (a b : Z) : Z := wrap (a - b).
Definition mul (a b : Z) : Z := wrap (a * b).

End Int32.

(** ** float64 *)

Module Float64.

(** Go's conversion [float64(n)] of an integer; exact for every int32. *)
Definition of_int (z : Z) : float :=
  if z <? 0
  then PrimFloat.opp (PrimFloat.of_uint63 (Uint63.of_Z (- z)))
  else PrimFloat.of_uint63 (Uint63.of_Z z).

(** Go's [x >= y] on float64: false as soon as one side is NaN. *)
Definition geb (x y : float) : bool := PrimFloat.leb y x.

(** Neither a negative number nor -Inf (a zero of either sign and NaN
    qualify). *)
Definition not_negative (x : spec_float) : bool :=
  match x with
  | S754_infinity true | S754_finite true _ _ => false
  | _ => true
  end.


End Float64.

(** ** Geometry primitives *)

(** The Euclidean distance between (x, y) and (x2, y2), rounded down to
    an integer, in exact arithmetic. *)
Definition truncated_distance (x y x2 y2 : Z) : Z :=
  let dx := x - x2 in
  let dy := y - y2 in
  Z.sqrt (dx * dx + dy * dy).

(** Modelled from the spec: [Distance] is declared outside the two source
    files.  The spec lists it as the "scalar distance" primitive, and
    [circle.go] compares its result with [int32] values, so the result is
    an [int32] that is not negative: the truncated distance where that is
    an [int32].  Two int32 points can be further apart than any [int32];
    the spec does not say what is returned then, and the model returns the
    largest [int32]. *)
Definition Distance (x y x2 y2 : Z) : Z :=
  Z.min (truncated_distance x y x2 y2) Int32.max_int.

(** ** Shape variants *)

(** Modelled from the spec: the position (X, Y) shared by every variant;
    the struct is declared outside the two source files (its tag list and
    user payload play no part in the collision tests). *)
Record BasicShape : Type := mkBasicShape { X : Z; Y : Z }.

Record Circle : Type := mkCircle { Circle_BasicShape :> BasicShape; Radius : Z }.

(** Modelled from the spec: axis-aligned rectangle, position at its
    top-left corner, fields as read by [Circle.IsColliding]. *)
Record Rectangle : Type :=
  mkRectangle { Rectangle_BasicShape :> BasicShape; W : Z; H : Z }.

(** Modelled from the spec: segment from (X, Y) to (X2, Y2), fields as
    read by [isCollidingWithLine]. *)
Record Line : Type := mkLine { Line_BasicShape :> BasicShape; X2 : Z; Y2 : Z }.

Definition NewCircle (x y radius : Z) : Circle :=
  {| Circle_BasicShape := {| X := x; Y := y |}; Radius := radius |}.

Definition NewRectangle (x y w h : Z) : Rectangle :=
  {| Rectangle_BasicShape := {| X := x; Y := y |}; W := w; H := h |}.

Definition NewLine (x y x2 y2 : Z) : Line :=
  {| Line_BasicShape := {| X := x; Y := y |}; X2 := x2; Y2 := y2 |}.

(** Modelled from the spec: "segment length", the [Distance] between the
    two endpoints. *)
Definition GetLength (l : Line) : Z := Distance (X l) (Y l) (X2 l) (Y2 l).

(** [c.GetBoundingRect()] *)
Definition GetBoundingRect (c : Circle) : Rectangle :=
  {| Rectangle_BasicShape :=
       {| X := Int32.sub (X c) (Radius c); Y := Int32.sub (Y c) (Radius c) |};
     W := Int32.mul (Radius c) 2;
     H := Int32.mul (Radius c) 2 |}.

(** ** Circle against Line: the triangle test *)

Module Triangle.
Import Float64.
Local Open Scope float_scope.

(** The three sides, as [isCollidingWithLine] converts them. *)
Definition AC (c : Circle) (l : Line) : float :=
  of_int (Distance (X c) (Y c) (X l) (Y l)).
Definition CB (c : Circle) (l : Line) : float :=
  of_int (Distance (X c) (Y c) (X2 l) (Y2 l)).
Definition BA (l : Line) : float := of_int (GetLength l).

(** Step 1: an endpoint within the radius. *)
Definition endpointInside (c : Circle) (l : Line) : bool :=
  (AC c l <=? of_int (Radius c)) || (CB c l <=? of_int (Radius c)).

(** The altitude [h] on the base BA, by Heron's formula. *)
Definition height (ac cb ba : float) : float :=
  let p := (ac + cb + ba) / 2 in
  2 * PrimFloat.sqrt (p * (p - ac) * (p - cb) * (p - ba)) / ba.

Definition cosC (ac cb ba : float) : float :=
  (ac * ac + cb * cb - ba * ba) / (2 * ac * cb).

Definition primaryLine (ac cb : float) : float :=
  if ac <? cb then cb else ac.

Definition newBA (ac cb ba : float) (radius : Z) : float :=
  let pl := primaryLine ac cb in
  PrimFloat.sqrt (pl * pl + of_int (Int32.mul radius radius)
        - 2 * pl * of_int radius * cosC ac cb ba).

End Triangle.

(** [isCollidingWithLine]; every float64 operation is rounded on its own
    (no fused multiply-add). *)
Definition isCollidingWithLine (c : Circle) (l : Line) : bool :=
  let AC := Triangle.AC c l in
  let CB := Triangle.CB c l in
  let BA := Triangle.BA l in
  if Triangle.endpointInside c l then true
  else
    let h := Triangle.height AC CB BA in
    if PrimFloat.leb h (Float64.of_int (Radius c)) then
      if Float64.geb BA (Triangle.newBA AC CB BA (Radius c)) then true else false
    else false.

(** The direct test the triangle test is compared with: the squared
    distance from the centre to the nearest point of the segment against
    the squared radius, in exact integer arithmetic. *)
Definition segmentWithinRadius (c : Circle) (l : Line) : bool :=
  let abx := X2 l - X l in
  let aby := Y2 l - Y l in
  let acx := X c - X l in
  let acy := Y c - Y l in
  let bcx := X c - X2 l in
  let bcy := Y c - Y2 l in
  let dot := acx * abx + acy * aby in
  let len2 := abx * abx + aby * aby in
  let r2 := Radius c * Radius c in
  if dot <=? 0 then acx * acx + acy * acy <=? r2
  else if len2 <=? dot then bcx * bcx + bcy * bcy <=? r2
  else (acx * acx + acy * acy) * len2 - dot * dot <=? r2 * len2.

(** ** The heap of shapes *)

(** A Go [Shape] value is a reference.  A reference with no object in the
    heap plays the part of the nil Shape; a reference bound to [ONil t]
    plays the part of a Shape that holds a nil pointer of type [t], which
    the type switch of [Circle.IsColliding] still matches by its type. *)
Definition ref : Type := nat.
Abbreviation Shape := ref.

(** [type Space []Shape].  A Space is modelled by the list of its
    members: every Space owns the array behind its slice, as the Spaces
    made by [NewSpace] and changed through the methods below do.  Two
    Space values sharing one array (after [s2 := *s1]) are not
    represented. *)
Abbreviation Space := (list Shape).

(** The pointer types of the package that implement Shape. *)
Inductive pointer : Type := PCircle | PRectangle | PLine | PSpace.

Inductive object : Type :=
| OCircle (c : Circle)
| ORectangle (r : Rectangle)
| OLine (l : Line)
| OSpace (sp : Space)
| OForeign                    (* any other implementation of Shape *)
| ONil (t : pointer).         (* a nil pointer of type t *)

Abbreviation heap := (gmap ref object).

(** What a call prints on standard output. *)
Inductive event : Type :=
| Warning (other c : ref).    (* "WARNING! Object other isn't a valid shape ..." *)

Inductive fault : Type :=
| CannotAddItself (sp : ref)  (* panic("ERROR! Space %s cannot add itself!") *)
| NilDereference.

(** Outcome of a call: a normal return, a panic, a call into a method
    that is not part of the two source files, or recursion deeper than
    the fuel given. *)
Inductive result (A : Type) : Type :=
| Ret (a : A)
| Panic (f : fault)
| Outside
| OutOfFuel.
Arguments Ret {A} a.
Arguments Panic {A} f.
Arguments Outside {A}.
Arguments OutOfFuel {A}.

#[global] Instance result_ret : MRet result := @Ret.
#[global] Instance result_bind : MBind result := fun A B k m =>
  match m with
  | Ret a => k a
  | Panic f => Panic f
  | Outside => Outside
  | OutOfFuel => OutOfFuel
  end.

Definition returns {A} (m : result A) : Prop := exists a, m = Ret a.

(** ** Circle.IsColliding and Space.IsColliding *)

Section IsColliding.
(** [call self other] stands for the dynamic dispatch
    [self.IsColliding(other)]. *)
Variable call : ref -> ref -> result (bool * list event).
Variable h : heap.

Definition Circle_IsColliding (self : ref) (c : Circle) (other : Shape)
  : result (bool * list event) :=
  match h !! other with
  | Some (ONil (PCircle | PRectangle | PLine)) => Panic NilDereference
  | Some (OCircle b) =>
      Ret (Distance (X c) (Y c) (X b) (Y b) <=? Int32.add (Radius c) (Radius b), [])
  | Some (ORectangle b) =>
      let closestX :=
        if X c <? X b then X b
        else if X c >? Int32.add (X b) (W b) then Int32.add (X b) (W b)
        else X c in
      let closestY :=
        if Y c <? Y b then Y b
        else if Y c >? Int32.add (Y b) (H b) then Int32.add (Y b) (H b)
        else Y c in
      Ret (Distance (X c) (Y c) closestX closestY <=? Radius c, [])
  | Some (OLine b) => Ret (isCollidingWithLine c b, [])
  | Some (OSpace _ | ONil PSpace) => call other self
  | Some OForeign | None => Ret (false, [Warning other self])
  end.

(** [c.IsColliding(other)] for a nil [c]: the three cases that read [c.X]
    panic; the Space case and the warning do not touch [c]. *)
Definition nil_Circle_IsColliding (self : ref) (other : Shape)
  : result (bool * list event) :=
  match h !! other with
  | Some (OCircle _ | ORectangle _ | OLine _) => Panic NilDereference
  | Some (ONil (PCircle | PRectangle | PLine)) => Panic NilDereference
  | Some (OSpace _ | ONil PSpace) => call other self
  | Some OForeign | None => Ret (false, [Warning other self])
  end.

(** [sp.IsColliding(shape)]: the loop over the members of [sp]. *)
Fixpoint Space_IsColliding (sp : Space) (shape : Shape)
  : result (bool * list event) :=
  match sp with
  | [] => Ret (false, [])
  | other :: rest =>
      if decide (other = shape) then Space_IsColliding rest shape
      else
        '(colliding, out) ← call shape other;
        if colliding : bool then Ret (true, out)
        else '(b, out') ← Space_IsColliding rest shape; Ret (b, out ++ out')
  end.
End IsColliding.

Fixpoint IsColliding (fuel : nat) (h : heap) (self other : Shape)
  : result (bool * list event) :=
  match fuel with
  | O => OutOfFuel
  | S fuel =>
      match h !! self with
      | Some (OCircle c) => Circle_IsColliding (IsColliding fuel h) h self c other
      | Some (ONil PCircle) => nil_Circle_IsColliding (IsColliding fuel h) h self other
      | Some (OSpace sp) => Space_IsColliding (IsColliding fuel h) sp other
      | Some (ONil PSpace) => Panic NilDereference
      | Some (ORectangle _ | OLine _ | OForeign | ONil (PRectangle | PLine)) => Outside
      | None => Panic NilDereference
      end
  end.

(** ** WouldBeColliding *)

Definition offset (b : BasicShape) (dx dy : Z) : BasicShape :=
  {| X := Int32.add (X b) dx; Y := Int32.add (Y b) dy |}.

Definition restore (b : BasicShape) (dx dy : Z) : BasicShape :=
  {| X := Int32.sub (X b) dx; Y := Int32.sub (Y b) dy |}.

(** [c.X += dx; c.Y += dy], the test, then [c.X -= dx; c.Y -= dy]: the
    circle is written back into the heap before the test, which reads it
    there, and again after it.  A test that does not return leaves the
    function at once. *)
Definition Circle_WouldBeColliding
    (isColliding : heap -> Shape -> Shape -> result (bool * list event))
    (h : heap) (self : ref) (c : Circle) (other : Shape) (dx dy : Z)
  : result (bool * heap * list event) :=
  let c1 := mkCircle (offset c dx dy) (Radius c) in
  let h1 := <[self := OCircle c1]> h in
  '(colliding, out) ← isColliding h1 self other;
  let c2 := mkCircle (restore c1 dx dy) (Radius c1) in
  Ret (colliding, <[self := OCircle c2]> h1, out).

(** [sp.WouldBeColliding(other, dx, dy)]: the loop over the members;
    [call h shape] stands for [shape.WouldBeColliding(other, dx, dy)]. *)
Fixpoint Space_WouldBeColliding
    (call : heap -> Shape -> result (bool * heap * list event))
    (h : heap) (sp : Space) (other : Shape)
  : result (bool * heap * list event) :=
  match sp with
  | [] => Ret (false, h, [])
  | shape :: rest =>
      if decide (shape = other) then Ret (false, h, [])
      else
        '(colliding, h', out) ← call h shape;
        if colliding : bool then Ret (true, h', out)
        else
          '(b, h'', out') ← Space_WouldBeColliding call h' rest other;
          Ret (b, h'', out ++ out')
  end.

Fixpoint WouldBeColliding (fuel : nat) (h : heap) (self other : Shape) (dx dy : Z)
  : result (bool * heap * list event) :=
  match fuel with
  | O => OutOfFuel
  | S fuel =>
      match h !! self with
      | Some (OCircle c) =>
          Circle_WouldBeColliding (IsColliding fuel) h self c other dx dy
      | Some (OSpace sp) =>
          Space_WouldBeColliding
            (fun h' shape => WouldBeColliding fuel h' shape other dx dy) h sp other
      | Some (ONil (PCircle | PSpace)) => Panic NilDereference
      | Some (ORectangle _ | OLine _ | OForeign | ONil (PRectangle | PLine)) => Outside
      | None => Panic NilDereference
      end
  end.

(** The heap a call [c.WouldBeColliding(other, dx, dy)] leaves behind,
    however it ends: the two restoring assignments are not deferred, so a
    test that does not return leaves the circle where the first two
    assignments put it. *)
Definition Circle_WouldBeColliding_leaves
    (isColliding : heap -> Shape -> Shape -> result (bool * list event))
    (h : heap) (self : ref) (c : Circle) (other : Shape) (dx dy : Z) : heap :=
  let c1 := mkCircle (offset c dx dy) (Radius c) in
  let h1 := <[self := OCircle c1]> h in
  match isColliding h1 self other with
  | Ret _ =>
      let c2 := mkCircle (restore c1 dx dy) (Radius c1) in
      <[self := OCircle c2]> h1
  | _ => h1
  end.

(** ** Space.Add *)

(** [sp.Add(shapes...)]: the heap when the call ends, and the panic that
    ended it, if any.  Shapes before the offending one stay appended. *)
Fixpoint Add (h : heap) (sp : ref) (shapes : list Shape) : heap * option fault :=
  match shapes with
  | [] => (h, None)
  | shape :: rest =>
      if decide (shape = sp) then (h, Some (CannotAddItself shape))
      else
        match h !! sp with
        | Some (OSpace members) => Add (<[sp := OSpace (members ++ [shape])]> h) sp rest
        | _ => (h, Some NilDereference)
        end
  end.

(** [sp.Contains(shape)] *)
Fixpoint Contains (sp : Space) (shape : Shape) : bool :=
  match sp with
  | [] => false
  | s :: rest => if decide (s = shape) then true else Contains rest shape
  end.

(** ** Positions: GetXY, Move, Space.SetXY *)

(** Modelled from the spec: [GetXY] of the three basic variants is the
    method of the struct they embed, declared outside the two source
    files: "a shape's position is always exactly the coordinates last set
    via move/set".  The Space case is [Space.GetXY]. *)
Fixpoint GetXY (fuel : nat) (h : heap) (self : Shape) : result (Z * Z) :=
  match fuel with
  | O => OutOfFuel
  | S fuel =>
      match h !! self with
      | Some (OCircle c) => Ret (X c, Y c)
      | Some (ORectangle r) => Ret (X r, Y r)
      | Some (OLine l) => Ret (X l, Y l)
      | Some (OSpace sp) =>
          match sp with
          | root :: _ => GetXY fuel h root
          | [] => Ret (0, 0)
          end
      | Some OForeign => Outside
      | Some (ONil _) | None => Panic NilDereference
      end
  end.

(** The loop [for _, shape := range *sp { shape.Move(dx, dy) }]. *)
Fixpoint Space_Move (call : heap -> Shape -> result heap) (h : heap) (sp : Space)
  : result heap :=
  match sp with
  | [] => Ret h
  | shape :: rest => h' ← call h shape; Space_Move call h' rest
  end.

(** Modelled from the spec: [Move] of the three basic variants is declared
    outside the two source files: "move by a delta" translates the shape,
    a Line with both its endpoints.  The Space case is [Space.Move]. *)
Fixpoint Move (fuel : nat) (h : heap) (self : Shape) (dx dy : Z) : result heap :=
  match fuel with
  | O => OutOfFuel
  | S fuel =>
      match h !! self with
      | Some (OCircle c) =>
          Ret (<[self := OCircle (mkCircle (offset c dx dy) (Radius c))]> h)
      | Some (ORectangle r) =>
          Ret (<[self := ORectangle (mkRectangle (offset r dx dy) (W r) (H r))]> h)
      | Some (OLine l) =>
          Ret (<[self := OLine (mkLine (offset l dx dy)
                                       (Int32.add (X2 l) dx) (Int32.add (Y2 l) dy))]> h)
      | Some (OSpace sp) =>
          Space_Move (fun h' shape => Move fuel h' shape dx dy) h sp
      | Some OForeign => Outside
      | Some (ONil _) | None => Panic NilDereference
      end
  end.

(** [sp.SetXY(x, y)] for the Space at [self]. *)
Definition SetXY (fuel : nat) (h : heap) (self : ref) (x y : Z) : result heap :=
  match h !! self with
  | Some (OSpace sp) =>
      if (0 <? length sp)%nat then
        '(x0, y0) ← GetXY fuel h self;
        let dx := Int32.sub x x0 in
        let dy := Int32.sub y y0 in
        Space_Move (fun h' shape => Move fuel h' shape dx dy) h sp
      else Ret h
  | Some (ONil PSpace) | None => Panic NilDereference
  | Some _ => Outside
  end.

(** The position of the shape at [r], as its owner reads it. *)
Definition position (h : heap) (r : ref) : option (Z * Z) :=
  match h !! r with
  | Some (OCircle c) => Some (X c, Y c)
  | Some (ORectangle b) => Some (X b, Y b)
  | Some (OLine l) => Some (X l, Y l)
  | _ => None
  end.

(** ** Reference definitions and scenarios *)

(** Clamping [v] into the interval [[lo, hi]], as the spec words the
    Circle-Rectangle rule. *)
Definition clamp (lo hi v : Z) : Z := Z.max lo (Z.min v hi).

Definition two_circles (x1 y1 r1 x2 y2 r2 : Z) : heap :=
  {[ 1%nat := OCircle (NewCircle x1 y1 r1); 2%nat := OCircle (NewCircle x2 y2 r2) ]}.

Definition circle_and_rectangle (c : Circle) (r : Rectangle) : heap :=
  {[ 1%nat := OCircle c; 2%nat := ORectangle r ]}.

Definition circle_and_line (c : Circle) (l : Line) : heap :=
  {[ 1%nat := OCircle c; 2%nat := OLine l ]}.

(** A reference the type switch of [Circle.IsColliding] does not
    recognise: a foreign implementation of Shape, or nil. *)
Definition unrecognized (h : heap) (other : ref) : Prop :=
  h !! other = Some OForeign \/ h !! other = None.

(** [a.IsColliding(b)] comes back with [res], at some recursion depth. *)
Definition IsColliding_yields (h : heap) (a b : ref)
    (res : result (bool * list event)) : Prop :=
  res <> OutOfFuel /\ exists fuel, IsColliding fuel h a b = res.

(** Two overlapping circles in a Space, itself the only member of a
    second Space. *)
Definition nested_spaces : heap :=
  {[ 1%nat := OCircle (NewCircle 0 0 5); 2%nat := OCircle (NewCircle 1 0 5);
     3%nat := OSpace [1%nat; 2%nat]; 4%nat := OSpace [3%nat] ]}.

Definition circle_and_foreign : heap :=
  {[ 1%nat := OCircle (NewCircle 0 0 5); 2%nat := OForeign ]}.

(** [holds h sp x]: the Space at [sp] contains [x], as a member or
    through a chain of member Spaces. *)
Inductive holds (h : heap) : ref -> ref -> Prop :=
| holds_member sp members x :
    h !! sp = Some (OSpace members) -> x ∈ members -> holds h sp x
| holds_nested sp members y x :
    h !! sp = Some (OSpace members) -> y ∈ members -> holds h y x -> holds h sp x.

(** An empty Space 1 and a Space 2 whose only member is Space 1. *)
Definition space_in_space : heap :=
  {[ 1%nat := OSpace []; 2%nat := OSpace [1%nat] ]}.


(** Space 4 holds circle 1, then circle 2, then circle 3, which lies on
    top of circle 2. *)
Definition three_in_space : heap :=
  {[ 1%nat := OCircle (NewCircle 0 0 1); 2%nat := OCircle (NewCircle 100 0 1);
     3%nat := OCircle (NewCircle 100 0 1); 4%nat := OSpace [1%nat; 2%nat; 3%nat] ]}.

(** A Space whose two members are the same circle. *)
Definition circle_twice : heap :=
  {[ 1%nat := OCircle (NewCircle 1 1 1); 2%nat := OSpace [1%nat; 1%nat] ]}.

(** Space 3 holds a circle at (1,2) and a rectangle at (10,20). *)
Definition circle_then_rectangle : heap :=
  {[ 1%nat := OCircle (NewCircle 1 2 1); 2%nat := ORectangle (NewRectangle 10 20 3 3);
     3%nat := OSpace [1%nat; 2%nat] ]}.

(** A position moved by (dx, dy), in int32 arithmetic. *)
Definition shift (dx dy : Z) (p : Z * Z) : Z * Z :=
  (Int32.add (fst p) dx, Int32.add (snd p) dy).

(** Every field is an int32 value. *)
Definition Circle_in_range (c : Circle) : Prop :=
  Int32.in_range (X c) /\ Int32.in_range (Y c) /\ Int32.in_range (Radius c).

Definition Line_in_range (l : Line) : Prop :=
  Int32.in_range (X l) /\ Int32.in_range (Y l) /\
  Int32.in_range (X2 l) /\ Int32.in_range (Y2 l).

(** [nesting_le h n r]: below [r], Spaces are nested at most [n] deep
    (a shape that is not a Space has nesting 0). *)
Inductive nesting_le (h : heap) : nat -> ref -> Prop :=
| nesting_flat n r :
    (forall sp, h !! r <> Some (OSpace sp)) -> nesting_le h n r
| nesting_space n r sp :
    h !! r = Some (OSpace sp) ->
    (forall m, m ∈ sp -> nesting_le h n m) ->
    nesting_le h (S n) r.

(** ** The rest of the Space container *)

(** [NewSpace()]: an empty Space at an address no live object has. *)
Definition NewSpace (h : heap) : heap * ref :=
  let sp := fresh (dom h) in (<[sp := OSpace []]> h, sp).

(** The inner loop of [Remove]: the members without the first one that is
    [shape], or [None] when the loop ends without finding it. *)
Fixpoint remove_first (sp : Space) (shape : Shape) : option Space :=
  match sp with
  | [] => None
  | s :: rest =>
      if decide (s = shape) then Some rest
      else match remove_first rest shape with
           | Some rest' => Some (s :: rest')
           | None => None
           end
  end.

(** [sp.Remove(shapes...)]: the Space is written only when a shape was
    found. *)
Fixpoint Remove (h : heap) (sp : ref) (shapes : list Shape) : heap * option fault :=
  match shapes with
  | [] => (h, None)
  | shape :: rest =>
      match h !! sp with
      | Some (OSpace members) =>
          match remove_first members shape with
          | Some members' => Remove (<[sp := OSpace members']> h) sp rest
          | None => Remove h sp rest
          end
      | _ => (h, Some NilDereference)
      end
  end.

(** [sp.Clear()] *)
Definition Clear (h : heap) (sp : ref) : heap * option fault :=
  match h !! sp with
  | Some (OSpace _) => (<[sp := OSpace []]> h, None)
  | _ => (h, Some NilDereference)
  end.

(** [sp.Length()], on the value [*sp]. *)
Definition Length (sp : Space) : Z := Z.of_nat (length sp).

(** [sp.Get(index)], on the value [*sp]; [None] is the run-time panic
    for an index out of range. *)
Definition Get (sp : Space) (index : Z) : option Shape :=
  if (index <? 0) || (Length sp <=? index) then None
  else sp !! Z.to_nat index.

(** The loop of [Filter]: [subSpace.Add(shape)] for every member that
    passes. *)
Fixpoint Filter_loop (filterFunc : Shape -> bool) (h : heap) (subSpace : ref)
    (sp : Space) : heap * option fault :=
  match sp with
  | [] => (h, None)
  | shape :: rest =>
      if filterFunc shape then
        match Add h subSpace [shape] with
        | (h', None) => Filter_loop filterFunc h' subSpace rest
        | (h', Some f) => (h', Some f)
        end
      else Filter_loop filterFunc h subSpace rest
  end.

(** [sp.Filter(filterFunc)]: the heap with the new Space, and its
    address. *)
Definition Filter (h : heap) (sp : ref) (filterFunc : Shape -> bool)
  : heap * ref * option fault :=
  let '(h0, subSpace) := NewSpace h in
  match h !! sp with
  | Some (OSpace members) =>
      let '(h1, f) := Filter_loop filterFunc h0 subSpace members in
      (h1, subSpace, f)
  | _ => (h0, subSpace, Some NilDereference)
  end.

Section Tags.
(** [HasTags s tags] stands for the dynamic call [s.HasTags(tags...)];
    the tag list of the basic shapes is declared outside the two source
    files. *)
Variable tag : Type.
Variable HasTags : Shape -> list tag -> bool.

(** [sp.HasTags(tags...)], on the value [*sp]. *)
Fixpoint Space_HasTags (sp : Space) (tags : list tag) : bool :=
  match sp with
  | [] => true
  | shape :: rest =>
      if negb (HasTags shape tags) then false else Space_HasTags rest tags
  end.

Definition FilterByTags (h : heap) (sp : ref) (tags : list tag)
  : heap * ref * option fault :=
  Filter h sp (fun s => if HasTags s tags then true else false).

Definition FilterOutByTags (h : heap) (sp : ref) (tags : list tag)
  : heap * ref * option fault :=
  Filter h sp (fun s => if HasTags s tags then false else true).
End Tags.

(** The loop of [GetCollidingShapes]; [call h shape other] stands for
    [shape.IsColliding(other)] in the heap of the moment. *)
Fixpoint GetCollidingShapes_loop
    (call : heap -> Shape -> Shape -> result (bool * list event))
    (h : heap) (newSpace : ref) (sp : Space) (shape : Shape)
  : result (heap * list event) :=
  match sp with
  | [] => Ret (h, [])
  | other :: rest =>
      if decide (other = shape) then GetCollidingShapes_loop call h newSpace rest shape
      else
        '(colliding, out) ← call h shape other;
        if colliding : bool then
          match Add h newSpace [other] with
          | (h', None) =>
              '(h'', out') ← GetCollidingShapes_loop call h' newSpace rest shape;
              Ret (h'', out ++ out')
          | (_, Some f) => Panic f
          end
        else
          '(h'', out') ← GetCollidingShapes_loop call h newSpace rest shape;
          Ret (h'', out ++ out')
  end.

(** [sp.GetCollidingShapes(shape)]: the heap with the new Space, its
    address and the output. *)
Definition GetCollidingShapes (fuel : nat) (h : heap) (sp : ref) (shape : Shape)
  : result (heap * ref * list event) :=
  let '(h0, newSpace) := NewSpace h in
  match h !! sp with
  | Some (OSpace members) =>
      '(h1, out) ← GetCollidingShapes_loop (IsColliding fuel) h0 newSpace members shape;
      Ret (h1, newSpace, out)
  | _ => Panic NilDereference
  end.

(** Every member of every Space is bound in the heap: no member is the
    nil Shape. *)
Definition closed (h : heap) : Prop :=
  forall sp members x,
    h !! sp = Some (OSpace members) -> x ∈ members -> is_Some (h !! x).

(** Whether [shape.IsColliding(other)] answers true. *)
Definition collides (fuel : nat) (h : heap) (shape other : Shape) : bool :=
  match IsColliding fuel h shape other with
  | Ret (true, _) => true
  | _ => false
  end.

(** The members of a Space, other than [shape] itself, that [shape]
    collides with. *)
Definition colliding_members (fuel : nat) (h : heap) (members : Space)
    (shape : Shape) : Space :=
  List.filter
    (fun other => if decide (other = shape) then false else collides fuel h shape other)
    members.



(** ** Definitions for the further statements *)

(** No Shape of the heap holds a nil pointer. *)
Definition no_nil_pointers (h : heap) : Prop :=
  forall r t, h !! r <> Some (ONil t).

Definition is_circle (h : heap) (r : ref) : Prop :=
  exists c, h !! r = Some (OCircle c).

Definition is_space (h : heap) (r : ref) : Prop :=
  exists sp, h !! r = Some (OSpace sp).

(** A Space all of whose members are Circles. *)
Definition space_of_circles (h : heap) (r : ref) : Prop :=
  exists sp, h !! r = Some (OSpace sp) /\ forall m, m ∈ sp -> is_circle h m.

(** The Circle-Circle rule on two references of the heap. *)
Definition touching (h : heap) (a b : ref) : bool :=
  match h !! a, h !! b with
  | Some (OCircle ca), Some (OCircle cb) =>
      Distance (X ca) (Y ca) (X cb) (Y cb) <=? Int32.add (Radius ca) (Radius cb)
  | _, _ => false
  end.

(** Whether some member of [sp] other than [shape] touches [shape]. *)
Definition touches_any (h : heap) (sp : Space) (shape : ref) : bool :=
  existsb (fun m => if decide (m = shape) then false else touching h shape m) sp.

(** The lists [f] gives for the members of [sp], one after the other. *)
Fixpoint collect (f : ref -> option (list ref)) (sp : Space) : option (list ref) :=
  match sp with
  | [] => Some []
  | m :: rest =>
      match f m, collect f rest with
      | Some l, Some ls => Some (l ++ ls)
      | _, _ => None
      end
  end.

(** The circles, rectangles and lines that [r.Move] reaches, in the order
    and as often as it reaches them: [r] itself, or what the members of
    the Space [r] reach.  [None] when a nil, a nil pointer or a foreign
    Shape is met, or the nesting is deeper than the fuel. *)
Fixpoint reached (fuel : nat) (h : heap) (r : ref) : option (list ref) :=
  match fuel with
  | O => None
  | S fuel =>
      match h !! r with
      | Some (OCircle _ | ORectangle _ | OLine _) => Some [r]
      | Some (OSpace sp) => collect (reached fuel h) sp
      | _ => None
      end
  end.

(** The circle, rectangle or line whose position [r.GetXY] reports: [r]
    itself, or the root of the first member of the Space [r].  An empty
    Space has none. *)
Fixpoint root (fuel : nat) (h : heap) (r : ref) : option ref :=
  match fuel with
  | O => None
  | S fuel =>
      match h !! r with
      | Some (OCircle _ | ORectangle _ | OLine _) => Some r
      | Some (OSpace (first :: _)) => root fuel h first
      | _ => None
      end
  end.

(** What [reached] and [root] read of an object: the members of a Space,
    or that it is a circle, rectangle or line. *)
Definition skeleton (o : option object) : option (option Space) :=
  match o with
  | Some (OSpace sp) => Some (Some sp)
  | Some (OCircle _ | ORectangle _ | OLine _) => Some None
  | _ => None
  end.

(** Space 3 holds the circle 1 at (1,2) and then the nil Shape. *)
Definition circle_then_nil : heap :=
  {[ 1%nat := OCircle (NewCircle 1 2 1); 3%nat := OSpace [1%nat; 2%nat] ]}.

(** [moved_by dx dy l h h']: from [h] to [h'] every shape of [l] has moved by
    (dx, dy), in int32 arithmetic, and nothing else has changed. *)
Definition moved_by (dx dy : Z) (l : list ref) (h h' : heap) : Prop :=
  (forall m, m ∈ l -> position h' m = shift dx dy <$> position h m) /\
  (forall m, m ∉ l -> h' !! m = h !! m).

(** A circle and a Shape that holds a nil pointer to a Circle. *)
Definition circle_and_nil : heap :=
  {[ 1%nat := OCircle (NewCircle 0 0 5); 2%nat := ONil PCircle ]}.

(** Space 5 holds circles 1 and 2, Space 6 holds circles 3 and 1; circles
    2 and 3 overlap. *)
Definition two_spaces : heap :=
  {[ 1%nat := OCircle (NewCircle 0 0 1); 2%nat := OCircle (NewCircle 50 0 5);
     3%nat := OCircle (NewCircle 58 0 5);
     5%nat := OSpace [1%nat; 2%nat]; 6%nat := OSpace [3%nat; 1%nat] ]}.

(** Space 4 holds the circle 1 at (1,2) and the Space 3, whose only
    member is the circle 2 at (10,20). *)
Definition circle_then_space : heap :=
  {[ 1%nat := OCircle (NewCircle 1 2 1); 2%nat := OCircle (NewCircle 10 20 1);
     3%nat := OSpace [2%nat]; 4%nat := OSpace [1%nat; 3%nat] ]}.

(** * Properties *)

(** ** int32 facts *)

Lemma wrap_in_range z : Int32.in_range z -> Int32.wrap z = z.
Proof.
  unfold Int32.in_range, Int32.wrap, Int32.min_int, Int32.max_int.
  intros Hz. rewrite Z.mod_small; lia.
Qed.

Lemma wrap_range z : Int32.in_range (Int32.wrap z).
Proof.
  unfold Int32.in_range, Int32.wrap, Int32.min_int, Int32.max_int.
  pose proof (Z.mod_pos_bound (z + 2 ^ 31) (2 ^ 32)). lia.
Qed.

Lemma sub_add_cancel x d : Int32.in_range x -> Int32.sub (Int32.add x d) d = x.
Proof.
  intros Hx. unfold Int32.sub, Int32.add, Int32.wrap.
  rewrite <- (wrap_in_range x Hx) at 2. unfold Int32.wrap.
  f_equal. 
  replace ((x + d + 2 ^ 31) mod 2 ^ 32 - 2 ^ 31 - d + 2 ^ 31)
    with ((x + d + 2 ^ 31) mod 2 ^ 32 - d) by lia.
  rewrite Zminus_mod_idemp_l. f_equal. lia.
Qed.

Lemma add_sub_cancel x x0 : Int32.in_range x -> Int32.add x0 (Int32.sub x x0) = x.
Proof.
  intros Hx. unfold Int32.sub, Int32.add, Int32.wrap.
  rewrite <- (wrap_in_range x Hx) at 2. unfold Int32.wrap.
  f_equal.
  replace (x0 + ((x - x0 + 2 ^ 31) mod 2 ^ 32 - 2 ^ 31) + 2 ^ 31)
    with (x0 + (x - x0 + 2 ^ 31) mod 2 ^ 32) by lia.
  rewrite Zplus_mod_idemp_r. f_equal. lia.
Qed.

(** ** Distance facts *)

Lemma truncated_distance_nonneg x y x2 y2 : 0 <= truncated_distance x y x2 y2.
Proof. unfold truncated_distance. apply Z.sqrt_nonneg. Qed.

Lemma Distance_nonneg x y x2 y2 : 0 <= Distance x y x2 y2.
Proof.
  unfold Distance, Int32.max_int.
  pose proof (truncated_distance_nonneg x y x2 y2). lia.
Qed.

Lemma Distance_in_range x y x2 y2 : Int32.in_range (Distance x y x2 y2).
Proof.
  pose proof (Distance_nonneg x y x2 y2).
  unfold Int32.in_range, Int32.min_int. split; [lia|].
  unfold Distance. apply Z.le_min_r.
Qed.

Lemma Distance_sym x y x2 y2 : Distance x y x2 y2 = Distance x2 y2 x y.
Proof. unfold Distance, truncated_distance. do 2 f_equal. lia. Qed.

Lemma Distance_self x y : Distance x y x y = 0.
Proof. unfold Distance, truncated_distance. rewrite !Z.sub_diag. reflexivity. Qed.



(** ** Circle against Circle *)

Section CircleCircle.
Variables (h : heap) (ra rb : ref) (a b : Circle).
Hypothesis Ha : h !! ra = Some (OCircle a).
Hypothesis Hb : h !! rb = Some (OCircle b).

Lemma IsColliding_circle_circle fuel :
  IsColliding (S fuel) h ra rb =
  Ret (Distance (X a) (Y a) (X b) (Y b) <=? Int32.add (Radius a) (Radius b), []).
Proof. simpl. rewrite Ha. unfold Circle_IsColliding. rewrite Hb. reflexivity. Qed.
End CircleCircle.




(** ** Circle against Rectangle *)

Lemma closest_clamp v lo extent :
  0 <= extent -> Int32.in_range (lo + extent) ->
  (if v <? lo then lo
   else if v >? Int32.add lo extent then Int32.add lo extent else v)
  = clamp lo (lo + extent) v.
Proof.
  intros Hext Hsum. unfold Int32.add, clamp. rewrite wrap_in_range by assumption.
  destruct (Z.ltb_spec v lo); [lia|].
  rewrite Z.gtb_ltb. destruct (Z.ltb_spec (lo + extent) v); lia.
Qed.




(** ** Unrecognised shapes *)

(** C7: against a Shape that is none of Circle, Rectangle, Line or Space,
    [Circle.IsColliding] prints the warning and returns false; it does
    not panic. *)
Theorem C7_unrecognized_warns (fuel : nat) (h : heap) (rc other : ref) (c : Circle) :
  h !! rc = Some (OCircle c) ->
  unrecognized h other ->
  IsColliding (S fuel) h rc other = Ret (false, [Warning other rc]).
Proof.
  intros Hc Hother. simpl. rewrite Hc. unfold Circle_IsColliding.
  destruct Hother as [-> | ->]; reflexivity.
Qed.

Lemma C7_unrecognized_warns_witness :
  IsColliding 1 circle_and_foreign 1%nat 2%nat = Ret (false, [Warning 2%nat 1%nat]) /\
  IsColliding 1 circle_and_foreign 1%nat 7%nat = Ret (false, [Warning 7%nat 1%nat]).
Proof.
  split.
  - apply (C7_unrecognized_warns 0 circle_and_foreign 1%nat 2%nat (NewCircle 0 0 5));
      [reflexivity | left; reflexivity].
  - apply (C7_unrecognized_warns 0 circle_and_foreign 1%nat 7%nat (NewCircle 0 0 5));
      [reflexivity | right; reflexivity].
Defined.

(** ** Circle.WouldBeColliding *)

Lemma restore_offset (b : BasicShape) dx dy :
  Int32.in_range (X b) -> Int32.in_range (Y b) ->
  restore (offset b dx dy) dx dy = b.
Proof.
  intros HX HY. destruct b as [x y]. unfold restore, offset. simpl in *.
  rewrite !sub_add_cancel by assumption. reflexivity.
Qed.

Lemma IsColliding_circle_space fuel (h : heap) rc rs c sp :
  h !! rc = Some (OCircle c) -> h !! rs = Some (OSpace sp) ->
  IsColliding (S fuel) h rc rs = IsColliding fuel h rs rc.
Proof.
  intros Hc Hs. simpl. rewrite Hc. unfold Circle_IsColliding. rewrite Hs. reflexivity.
Qed.

(** The loop of [Space.IsColliding] returns when each call it makes does. *)
Lemma Space_IsColliding_returns call (shape : ref) (sp : list ref) :
  (forall m, m ∈ sp -> returns (call shape m)) ->
  returns (Space_IsColliding call sp shape).
Proof.
  induction sp as [|other rest IH]; intros Hcalls.
  - eexists. reflexivity.
  - assert (Hrest : returns (Space_IsColliding call rest shape))
      by (apply IH; intros m Hm; apply Hcalls, list_elem_of_further, Hm).
    simpl. destruct (decide (other = shape)); [exact Hrest|].
    destruct (Hcalls other (list_elem_of_here _ _)) as [[colliding out] ->]. simpl.
    destruct colliding; [eexists; reflexivity|].
    destruct Hrest as [[b out'] ->]. eexists. reflexivity.
Qed.

(** A Circle's collision test returns, given fuel for the nesting of the
    other shape, when no nil pointer is about. *)
Lemma IsColliding_circle_returns (h : heap) (rc : ref) (c : Circle) n other :
  no_nil_pointers h ->
  h !! rc = Some (OCircle c) ->
  nesting_le h n other ->
  forall fuel, (2 * n + 1 <= fuel)%nat -> returns (IsColliding fuel h rc other).
Proof.
  intros Hnil Hc Hnest.
  induction Hnest as [n r Hflat|n r sp Hsp _ IH]; intros fuel Hfuel.
  - destruct fuel as [|fuel]; [lia|]. simpl. rewrite Hc. unfold Circle_IsColliding.
    destruct (h !! r) as [[b|b|l|sp| |t]|] eqn:Hr; try (eexists; reflexivity).
    + destruct (Hflat sp). reflexivity.
    + destruct (Hnil r t Hr).
  - destruct fuel as [|[|fuel]]; [lia|lia|].
    rewrite (IsColliding_circle_space (S fuel) h rc r c sp Hc Hsp).
    simpl. rewrite Hsp. apply Space_IsColliding_returns.
    intros m Hm. apply (IH m Hm). lia.
Qed.

(** Against a Shape that holds a nil pointer, a Circle's collision test
    panics. *)
Lemma IsColliding_circle_nil (h : heap) (rc other : ref) (c : Circle) t fuel :
  h !! rc = Some (OCircle c) ->
  h !! other = Some (ONil t) ->
  IsColliding (S (S fuel)) h rc other = Panic NilDereference.
Proof.
  intros Hc Hother.
  change (IsColliding (S (S fuel)) h rc other)
    with (match h !! rc with
          | Some (OCircle c0) => Circle_IsColliding (IsColliding (S fuel) h) h rc c0 other
          | Some (ONil PCircle) => nil_Circle_IsColliding (IsColliding (S fuel) h) h rc other
          | Some (OSpace sp) => Space_IsColliding (IsColliding (S fuel) h) sp other
          | Some (ONil PSpace) => Panic NilDereference
          | Some (ORectangle _ | OLine _ | OForeign | ONil (PRectangle | PLine)) => Outside
          | None => Panic NilDereference
          end).
  rewrite Hc. unfold Circle_IsColliding. rewrite Hother.
  destruct t; try reflexivity. simpl. rewrite Hother. reflexivity.
Qed.

Lemma nesting_le_insert_circle (h : heap) (rc : ref) (c c' : Circle) n r :
  h !! rc = Some (OCircle c) ->
  nesting_le h n r -> nesting_le (<[rc := OCircle c']> h) n r.
Proof.
  intros Hc. induction 1 as [n r Hflat|n r sp Hsp _ IH].
  - apply nesting_flat. intros sp. destruct (decide (rc = r)) as [->|Hne].
    + rewrite lookup_insert_eq. discriminate.
    + rewrite lookup_insert_ne by assumption. apply Hflat.
  - apply (nesting_space _ n r sp); [|exact IH].
    rewrite lookup_insert_ne; [exact Hsp|]. intros ->. congruence.
Qed.

Lemma no_nil_pointers_insert_circle (h : heap) (rc : ref) (c : Circle) :
  no_nil_pointers h -> no_nil_pointers (<[rc := OCircle c]> h).
Proof.
  intros Hnil r t. destruct (decide (rc = r)) as [->|Hne].
  - rewrite lookup_insert_eq. discriminate.
  - rewrite lookup_insert_ne by assumption. apply Hnil.
Qed.

(** The swept test of a Circle at int32 coordinates: the outcome of the
    collision test at the offset position, and the heap as it was. *)
Lemma Circle_WouldBeColliding_eq (fuel : nat) (h : heap) (rc other : ref)
    (c : Circle) (dx dy : Z) :
  h !! rc = Some (OCircle c) ->
  Int32.in_range (X c) -> Int32.in_range (Y c) ->
  WouldBeColliding (S fuel) h rc other dx dy =
    ('(colliding, out) ←
       IsColliding fuel (<[rc := OCircle (mkCircle (offset c dx dy) (Radius c))]> h)
         rc other;
     Ret (colliding, h, out)).
Proof.
  intros Hc HX HY. simpl. rewrite Hc. unfold Circle_WouldBeColliding. simpl.
  destruct (IsColliding fuel _ rc other) as [[colliding out]| | |]; try reflexivity.
  simpl. rewrite restore_offset by assumption.
  rewrite insert_insert_eq.
  replace (mkCircle c (Radius c)) with c by (destruct c; reflexivity).
  rewrite insert_id by assumption. reflexivity.
Qed.

(** C5, as amended: whenever the collision test at the offset position
    returns, [Circle.WouldBeColliding] returns its answer and the heap it
    leaves is the heap it found, the circle back at (X, Y), whether or
    not a collision was reported; with no nil pointer about the test does
    return, against any shape of finite nesting.  When the test panics,
    as it does against a Shape that holds a nil pointer, the call panics
    and leaves the circle displaced by (dx, dy). *)
Theorem C5_WouldBeColliding_restores (fuel : nat) (h : heap) (rc other : ref)
    (c : Circle) (dx dy : Z) :
  h !! rc = Some (OCircle c) ->
  Int32.in_range (X c) -> Int32.in_range (Y c) ->
  (forall colliding out,
      IsColliding fuel (<[rc := OCircle (mkCircle (offset c dx dy) (Radius c))]> h)
        rc other = Ret (colliding, out) ->
      WouldBeColliding (S fuel) h rc other dx dy = Ret (colliding, h, out) /\
      Circle_WouldBeColliding_leaves (IsColliding fuel) h rc c other dx dy = h /\
      position h rc = Some (X c, Y c)) /\
  (forall colliding h' out,
      WouldBeColliding (S fuel) h rc other dx dy = Ret (colliding, h', out) ->
      h' = h) /\
  (no_nil_pointers h ->
   forall n, nesting_le h n other -> (2 * n + 1 <= fuel)%nat ->
      exists colliding out,
        WouldBeColliding (S fuel) h rc other dx dy = Ret (colliding, h, out)) /\
  (forall f,
      IsColliding fuel (<[rc := OCircle (mkCircle (offset c dx dy) (Radius c))]> h)
        rc other = Panic f ->
      WouldBeColliding (S fuel) h rc other dx dy = Panic f /\
      position (Circle_WouldBeColliding_leaves (IsColliding fuel) h rc c other dx dy) rc
      = Some (Int32.add (X c) dx, Int32.add (Y c) dy)) /\
  (forall t, h !! other = Some (ONil t) -> (2 <= fuel)%nat ->
      WouldBeColliding (S fuel) h rc other dx dy = Panic NilDereference).
Proof.
  intros Hc HX HY.
  pose proof (Circle_WouldBeColliding_eq fuel h rc other c dx dy Hc HX HY) as Heq.
  split; [|split; [|split; [|split]]].
  - intros colliding out Htest. rewrite Heq, Htest. split; [reflexivity|].
    split; [|unfold position; rewrite Hc; reflexivity].
    unfold Circle_WouldBeColliding_leaves. rewrite Htest. simpl.
    rewrite restore_offset by assumption. rewrite insert_insert_eq.
    replace (mkCircle c (Radius c)) with c by (destruct c; reflexivity).
    apply insert_id. exact Hc.
  - intros colliding h' out Hrun. rewrite Heq in Hrun.
    destruct (IsColliding fuel _ rc other) as [[colliding' out']| | |];
      simpl in Hrun; try discriminate.
    injection Hrun as _ <- _. reflexivity.
  - intros Hnil n Hnest Hfuel. rewrite Heq.
    destruct (IsColliding_circle_returns
                (<[rc := OCircle (mkCircle (offset c dx dy) (Radius c))]> h) rc
                (mkCircle (offset c dx dy) (Radius c)) n other)
      with (fuel := fuel) as [[colliding out] ->].
    + apply no_nil_pointers_insert_circle, Hnil.
    + apply lookup_insert_eq.
    + apply (nesting_le_insert_circle h rc c); assumption.
    + exact Hfuel.
    + exists colliding, out. reflexivity.
  - intros f Htest. rewrite Heq, Htest. split; [reflexivity|].
    unfold Circle_WouldBeColliding_leaves. rewrite Htest.
    unfold position. rewrite lookup_insert_eq. reflexivity.
  - intros t Hother Hfuel. destruct fuel as [|[|fuel]]; [lia|lia|].
    rewrite Heq.
    rewrite (IsColliding_circle_nil _ rc other (mkCircle (offset c dx dy) (Radius c)) t);
      [reflexivity | apply lookup_insert_eq |].
    rewrite lookup_insert_ne by congruence. exact Hother.
Qed.

(** The circle at (0,0) of radius 5 swept by (6,0) towards the circle at
    (11,0): a collision is reported and the heap is unchanged. *)
Lemma C5_WouldBeColliding_restores_witness :
  WouldBeColliding 2 (two_circles 0 0 5 11 0 5) 1%nat 2%nat 6 0 =
    Ret (true, two_circles 0 0 5 11 0 5, []) /\
  position (two_circles 0 0 5 11 0 5) 1%nat = Some (0, 0).
Proof.
  destruct (C5_WouldBeColliding_restores 1 (two_circles 0 0 5 11 0 5) 1%nat 2%nat
              (NewCircle 0 0 5) 6 0) as [Hret _];
    [reflexivity | vm_compute; split; discriminate | vm_compute; split; discriminate |].
  destruct (Hret true []) as (Hrun & _ & Hpos); [reflexivity|].
  split; [exact Hrun | exact Hpos].
Defined.

(** C5 as stated fails against a Shape that holds a nil pointer to a
    Circle: the test at the offset position panics on reading its X, the
    two restoring assignments are never reached, and the circle that
    started at (0,0) is left at (3,4). *)
Lemma C5_counterexample :
  circle_and_nil !! 1%nat = Some (OCircle (NewCircle 0 0 5)) /\
  circle_and_nil !! 2%nat = Some (ONil PCircle) /\
  WouldBeColliding 2 circle_and_nil 1%nat 2%nat 3 4 = Panic NilDereference /\
  position
    (Circle_WouldBeColliding_leaves (IsColliding 1) circle_and_nil 1%nat
       (NewCircle 0 0 5) 2%nat 3 4) 1%nat = Some (3, 4).
Proof. repeat split; vm_compute; reflexivity. Qed.

(** ** Symmetry of IsColliding *)

Lemma IsColliding_S (fuel : nat) (h : heap) (a b : ref) :
  IsColliding (S fuel) h a b =
  match h !! a with
  | Some (OCircle c) => Circle_IsColliding (IsColliding fuel h) h a c b
  | Some (ONil PCircle) => nil_Circle_IsColliding (IsColliding fuel h) h a b
  | Some (OSpace sp) => Space_IsColliding (IsColliding fuel h) sp b
  | Some (ONil PSpace) => Panic NilDereference
  | Some (ORectangle _ | OLine _ | OForeign | ONil (PRectangle | PLine)) => Outside
  | None => Panic NilDereference
  end.
Proof. reflexivity. Qed.

Lemma IsColliding_circle_circle_sym fuel (h : heap) ra rb a b :
  h !! ra = Some (OCircle a) -> h !! rb = Some (OCircle b) ->
  IsColliding fuel h ra rb = IsColliding fuel h rb ra.
Proof.
  intros Ha Hb. destruct fuel as [|fuel]; [reflexivity|].
  rewrite (IsColliding_circle_circle h ra rb a b Ha Hb).
  rewrite (IsColliding_circle_circle h rb ra b a Hb Ha).
  rewrite Distance_sym. unfold Int32.add. rewrite (Z.add_comm (Radius a)). reflexivity.
Qed.

(** More fuel does not change an outcome that was reached. *)
Lemma Space_IsColliding_mono (call call' : ref -> ref -> result (bool * list event))
    (shape : ref) (sp : list ref) res :
  (forall a b r, r <> OutOfFuel -> call a b = r -> call' a b = r) ->
  res <> OutOfFuel ->
  Space_IsColliding call sp shape = res -> Space_IsColliding call' sp shape = res.
Proof.
  intros Hcall. revert res.
  induction sp as [|other rest IH]; intros res Hres Hrun; [exact Hrun|].
  simpl in *. destruct (decide (other = shape)); [apply IH; assumption|].
  destruct (call shape other) as [[colliding out]|f| |] eqn:Hc; simpl in Hrun.
  - assert (Hc' : call' shape other = Ret (colliding, out))
      by (apply Hcall; [discriminate | exact Hc]).
    rewrite Hc'. simpl. destruct colliding; [exact Hrun|].
    destruct (Space_IsColliding call rest shape) as [[b out']|f| |] eqn:Hrest;
      simpl in Hrun.
    + rewrite (IH (Ret (b, out'))); [exact Hrun | discriminate | reflexivity].
    + rewrite (IH (Panic f)); [exact Hrun | discriminate | reflexivity].
    + rewrite (IH Outside); [exact Hrun | discriminate | reflexivity].
    + congruence.
  - assert (Hc' : call' shape other = Panic f)
      by (apply Hcall; [discriminate | exact Hc]).
    rewrite Hc'. exact Hrun.
  - assert (Hc' : call' shape other = Outside)
      by (apply Hcall; [discriminate | exact Hc]).
    rewrite Hc'. exact Hrun.
  - congruence.
Qed.

Lemma IsColliding_mono (h : heap) fuel :
  forall a b res,
    res <> OutOfFuel -> IsColliding fuel h a b = res -> IsColliding (S fuel) h a b = res.
Proof.
  induction fuel as [|fuel IH]; intros a b res Hres Hrun; [simpl in Hrun; congruence|].
  rewrite IsColliding_S in Hrun. rewrite IsColliding_S.
  destruct (h !! a) as [[c|r|l|sp| |[| | |]]|]; try exact Hrun.
  - unfold Circle_IsColliding in *.
    destruct (h !! b) as [[c'|r|l|sp| |[| | |]]|]; try exact Hrun;
      apply IH; assumption.
  - apply (Space_IsColliding_mono (IsColliding fuel h)); [exact IH | exact Hres | exact Hrun].
  - unfold nil_Circle_IsColliding in *.
    destruct (h !! b) as [[c'|r|l|sp| |[| | |]]|]; try exact Hrun;
      apply IH; assumption.
Qed.

Lemma IsColliding_mono_le (h : heap) a b res fuel fuel' :
  (fuel <= fuel')%nat ->
  res <> OutOfFuel -> IsColliding fuel h a b = res -> IsColliding fuel' h a b = res.
Proof.
  induction 1 as [|fuel' _ IH]; intros Hres Hrun; [exact Hrun|].
  apply IsColliding_mono; [exact Hres | apply IH; assumption].
Qed.

(** A call has at most one outcome. *)
Lemma IsColliding_yields_unique (h : heap) a b res res' :
  IsColliding_yields h a b res -> IsColliding_yields h a b res' -> res = res'.
Proof.
  intros [Hres [fuel Hrun]] [Hres' [fuel' Hrun']].
  rewrite <- (IsColliding_mono_le h a b res fuel (Nat.max fuel fuel')
                ltac:(lia) Hres Hrun).
  apply (IsColliding_mono_le h a b res' fuel' (Nat.max fuel fuel')
           ltac:(lia) Hres' Hrun').
Qed.

(** Two calls that both return the same answer at some depth have the
    same outcomes. *)
Lemma yields_iff_of_returns (h : heap) (a b : ref) fuel fuel' r :
  IsColliding fuel h a b = Ret r -> IsColliding fuel' h b a = Ret r ->
  forall res, IsColliding_yields h a b res <-> IsColliding_yields h b a res.
Proof.
  intros Hab Hba res.
  assert (Yab : IsColliding_yields h a b (Ret r))
    by (split; [discriminate | exists fuel; exact Hab]).
  assert (Yba : IsColliding_yields h b a (Ret r))
    by (split; [discriminate | exists fuel'; exact Hba]).
  split; intros Hres.
  - rewrite (IsColliding_yields_unique h a b res (Ret r) Hres Yab). exact Yba.
  - rewrite (IsColliding_yields_unique h b a res (Ret r) Hres Yba). exact Yab.
Qed.

Lemma touching_sym (h : heap) (a b : ref) : touching h a b = touching h b a.
Proof.
  unfold touching.
  destruct (h !! a) as [[ca|?|?|?| |?]|]; destruct (h !! b) as [[cb|?|?|?| |?]|];
    try reflexivity.
  rewrite Distance_sym. unfold Int32.add. rewrite (Z.add_comm (Radius ca)). reflexivity.
Qed.

Lemma IsColliding_touching fuel (h : heap) (a b : ref) :
  is_circle h a -> is_circle h b ->
  IsColliding (S fuel) h a b = Ret (touching h a b, []).
Proof.
  intros [ca Ha] [cb Hb]. rewrite (IsColliding_circle_circle h a b ca cb Ha Hb).
  unfold touching. rewrite Ha, Hb. reflexivity.
Qed.

(** The loop of [Space.IsColliding] when every call answers without
    output: whether some member other than [shape] gets the answer
    true. *)
Lemma Space_IsColliding_existsb call (g : ref -> bool) (sp : list ref) (shape : ref) :
  (forall m, m ∈ sp -> m <> shape -> call shape m = Ret (g m, [])) ->
  Space_IsColliding call sp shape =
  Ret (existsb (fun m => if decide (m = shape) then false else g m) sp, []).
Proof.
  induction sp as [|other rest IH]; intros Hcall; [reflexivity|].
  assert (Hrest : Space_IsColliding call rest shape =
                  Ret (existsb (fun m => if decide (m = shape) then false else g m) rest, []))
    by (apply IH; intros m Hm; apply Hcall, list_elem_of_further, Hm).
  cbn [Space_IsColliding existsb].
  destruct (decide (other = shape)) as [->|Hne]; [exact Hrest|].
  rewrite (Hcall other (list_elem_of_here _ _) Hne).
  unfold mbind, result_bind. destruct (g other); [reflexivity|].
  rewrite Hrest. reflexivity.
Qed.

Lemma existsb_ext_in {A : Type} (f g : A -> bool) (l : list A) :
  (forall a, In a l -> f a = g a) -> existsb f l = existsb g l.
Proof.
  induction l as [|a l IH]; intros Hext; [reflexivity|].
  simpl. rewrite (Hext a (or_introl eq_refl)), IH; [reflexivity|].
  intros x Hx. apply Hext. right. exact Hx.
Qed.

(** A Space of circles against a circle. *)
Lemma IsColliding_space_circle fuel (h : heap) (rs rc : ref) (sp : list ref) :
  h !! rs = Some (OSpace sp) ->
  (forall m, m ∈ sp -> is_circle h m) ->
  is_circle h rc ->
  IsColliding (S (S fuel)) h rs rc = Ret (touches_any h sp rc, []).
Proof.
  intros Hs Hcircles Hc. rewrite IsColliding_S, Hs.
  apply (Space_IsColliding_existsb (IsColliding (S fuel) h) (touching h rc)).
  intros m Hm _. apply IsColliding_touching; [exact Hc | apply Hcircles, Hm].
Qed.

(** A Space of circles against a Space of circles: whether a member of
    the argument touches a member of the receiver other than itself. *)
Lemma IsColliding_space_space fuel (h : heap) (ra rb : ref) (spa spb : list ref) :
  h !! ra = Some (OSpace spa) -> h !! rb = Some (OSpace spb) ->
  (forall m, m ∈ spa -> is_circle h m) ->
  (forall m, m ∈ spb -> is_circle h m) ->
  IsColliding (S (S (S fuel))) h ra rb =
  Ret (existsb (fun a => touches_any h spb a) spa, []).
Proof.
  intros Ha Hb Hca Hcb. rewrite IsColliding_S, Ha.
  rewrite (Space_IsColliding_existsb (IsColliding (S (S fuel)) h)
             (fun a => touches_any h spb a)).
  - do 2 f_equal. apply existsb_ext_in.
    intros a Hin. apply list_elem_of_In, Hca in Hin as [ca Hin].
    rewrite decide_False; [reflexivity|]. intros ->. congruence.
  - intros m Hm _. apply (IsColliding_space_circle fuel h rb m spb Hb Hcb), Hca, Hm.
Qed.

Lemma existsb_swap {A B : Type} (f : A -> B -> bool) (la : list A) (lb : list B) :
  existsb (fun a => existsb (fun b => f a b) lb) la =
  existsb (fun b => existsb (fun a => f a b) la) lb.
Proof.
  apply eq_true_iff_eq. rewrite !existsb_exists. split.
  - intros (a & Ha & Hab). apply existsb_exists in Hab as (b & Hb & Hab).
    exists b. split; [exact Hb|]. apply existsb_exists. exists a. split; assumption.
  - intros (b & Hb & Hab). apply existsb_exists in Hab as (a & Ha & Hab).
    exists a. split; [exact Ha|]. apply existsb_exists. exists b. split; assumption.
Qed.

Lemma touches_any_swap (h : heap) (spa spb : list ref) :
  existsb (fun a => touches_any h spb a) spa =
  existsb (fun b => touches_any h spa b) spb.
Proof.
  unfold touches_any.
  rewrite (existsb_swap (fun a b => if decide (b = a) then false else touching h a b)).
  apply existsb_ext_in. intros b _. apply existsb_ext_in. intros a _.
  rewrite touching_sym.
  destruct (decide (b = a)) as [->|Hne].
  - rewrite decide_True by reflexivity. reflexivity.
  - rewrite decide_False by congruence. reflexivity.
Qed.

(** C6, as amended: a Circle against a Circle or against any Space, and
    two Spaces whose members are Circles, give the same outcome in both
    orders (the same answer and output, the same panic, or no return in
    either order); when each of the two is a Circle or a Space of
    Circles, both orders do return, with the same answer and no
    output. *)
Theorem C6_symmetry (h : heap) (a b : ref) :
  (is_circle h a /\ (is_circle h b \/ is_space h b)) \/
  (is_space h a /\ is_circle h b) \/
  (space_of_circles h a /\ space_of_circles h b) ->
  (forall res, IsColliding_yields h a b res <-> IsColliding_yields h b a res) /\
  ((is_circle h a \/ space_of_circles h a) ->
   (is_circle h b \/ space_of_circles h b) ->
   exists colliding,
     IsColliding_yields h a b (Ret (colliding, [])) /\
     IsColliding_yields h b a (Ret (colliding, []))).
Proof.
  assert (Hcs : forall rc rs c sp res,
            h !! rc = Some (OCircle c) -> h !! rs = Some (OSpace sp) ->
            IsColliding_yields h rc rs res <-> IsColliding_yields h rs rc res).
  { intros rc rs c sp res Hc Hs. unfold IsColliding_yields.
    split; intros [Hres [fuel Hrun]]; (split; [exact Hres|]).
    - destruct fuel as [|fuel]; [simpl in Hrun; congruence|].
      exists fuel. rewrite <- (IsColliding_circle_space fuel h rc rs c sp); assumption.
    - exists (S fuel). rewrite (IsColliding_circle_space fuel h rc rs c sp); assumption. }
  assert (Hiff : (is_circle h a /\ (is_circle h b \/ is_space h b)) \/
                 (is_space h a /\ is_circle h b) \/
                 (space_of_circles h a /\ space_of_circles h b) ->
                 forall res, IsColliding_yields h a b res <-> IsColliding_yields h b a res).
  { intros [[[ca Ha] [[cb Hb] | [sp Hs]]] | [[[sp Hs] [cb Hb]] | [Hsa Hsb]]] res.
    - unfold IsColliding_yields.
      split; intros [Hres [fuel Hrun]]; (split; [exact Hres|]); exists fuel.
      + rewrite <- (IsColliding_circle_circle_sym fuel h a b ca cb); assumption.
      + rewrite (IsColliding_circle_circle_sym fuel h a b ca cb); assumption.
    - apply (Hcs a b ca sp res Ha Hs).
    - symmetry. apply (Hcs b a cb sp res Hb Hs).
    - destruct Hsa as (spa & Ha & Hca). destruct Hsb as (spb & Hb & Hcb).
      apply (yields_iff_of_returns h a b 3 3 (existsb (fun x => touches_any h spb x) spa, [])).
      + apply (IsColliding_space_space 0 h a b spa spb); assumption.
      + rewrite (touches_any_swap h spa spb).
        apply (IsColliding_space_space 0 h b a spb spa); assumption. }
  intros Hpair. split; [apply Hiff, Hpair|].
  intros Ha Hb.
  assert (Hret : exists colliding, IsColliding_yields h a b (Ret (colliding, []))).
  { destruct Ha as [Ha | (spa & Ha & Hca)]; destruct Hb as [Hb | (spb & Hb & Hcb)].
    - exists (touching h a b). split; [discriminate|]. exists 1%nat.
      apply IsColliding_touching; assumption.
    - exists (touches_any h spb a). split; [discriminate|]. exists 3%nat.
      destruct Ha as [ca Hc].
      rewrite (IsColliding_circle_space 2 h a b ca spb Hc Hb).
      apply (IsColliding_space_circle 0 h b a spb Hb Hcb). exists ca. exact Hc.
    - exists (touches_any h spa b). split; [discriminate|]. exists 2%nat.
      apply (IsColliding_space_circle 0 h a b spa Ha Hca Hb).
    - exists (existsb (fun x => touches_any h spb x) spa). split; [discriminate|].
      exists 3%nat. apply (IsColliding_space_space 0 h a b spa spb); assumption. }
  destruct Hret as [colliding Hret]. exists colliding.
  split; [exact Hret | apply (Hiff Hpair), Hret].
Qed.

(** In [two_spaces], Space 5 and Space 6 share circle 1, and circle 2 of
    the one overlaps circle 3 of the other: colliding, in both orders. *)
Lemma C6_symmetry_witness :
  IsColliding_yields two_spaces 5%nat 6%nat (Ret (true, [])) /\
  IsColliding_yields two_spaces 6%nat 5%nat (Ret (true, [])).
Proof.
  assert (H5 : space_of_circles two_spaces 5%nat).
  { exists [1%nat; 2%nat]. split; [reflexivity|]. intros m Hm.
    apply elem_of_cons in Hm as [->|Hm]; [eexists; reflexivity|].
    apply elem_of_cons in Hm as [->|Hm]; [eexists; reflexivity|].
    apply elem_of_nil in Hm. destruct Hm. }
  assert (H6 : space_of_circles two_spaces 6%nat).
  { exists [3%nat; 1%nat]. split; [reflexivity|]. intros m Hm.
    apply elem_of_cons in Hm as [->|Hm]; [eexists; reflexivity|].
    apply elem_of_cons in Hm as [->|Hm]; [eexists; reflexivity|].
    apply elem_of_nil in Hm. destruct Hm. }
  destruct (C6_symmetry two_spaces 5%nat 6%nat) as [Hiff _];
    [right; right; split; assumption|].
  assert (Hrun : IsColliding_yields two_spaces 5%nat 6%nat (Ret (true, []))).
  { split; [discriminate|]. exists 3%nat. reflexivity. }
  split; [exact Hrun | apply Hiff, Hrun].
Defined.

(** C6 as stated fails for two Spaces when one is a member of the other:
    Space 3 against Space 4 finds the overlapping circles of 3, Space 4
    against Space 3 skips its only member, 3 itself, and answers false. *)
Lemma C6_counterexample :
  IsColliding 5 nested_spaces 3%nat 4%nat = Ret (true, []) /\
  IsColliding 5 nested_spaces 4%nat 3%nat = Ret (false, []).
Proof. split; vm_compute; reflexivity. Qed.

(** ** Space.Add *)

Lemma Add_app (sp : ref) (shapes rest : list ref) :
  sp ∉ shapes ->
  forall (h : heap) members,
    h !! sp = Some (OSpace members) ->
    Add h sp (shapes ++ rest) =
    Add (<[sp := OSpace (members ++ shapes)]> h) sp rest.
Proof.
  induction shapes as [|shape shapes IH]; intros Hnotin h members Hsp.
  - rewrite app_nil_r, insert_id by assumption. reflexivity.
  - apply not_elem_of_cons in Hnotin as [Hne Hnotin].
    simpl. rewrite decide_False by congruence. rewrite Hsp.
    rewrite (IH Hnotin _ (members ++ [shape])) by apply lookup_insert_eq.
    rewrite insert_insert_eq, <- app_assoc. reflexivity.
Qed.

(** C8, as amended: [Add] panics exactly when one of its arguments is
    the Space itself; the arguments before it have been appended by then
    and neither the Space nor a later argument is inserted.  With no such
    argument, and also when an argument is a Space that already holds
    this one, [Add] returns and has appended every argument in order. *)
Theorem C8_Add_self_check (h : heap) (sp : ref) (members : list ref) :
  h !! sp = Some (OSpace members) ->
  (forall shapes, sp ∉ shapes ->
     Add h sp shapes = (<[sp := OSpace (members ++ shapes)]> h, None)) /\
  (forall pre post, sp ∉ pre ->
     Add h sp (pre ++ sp :: post) =
     (<[sp := OSpace (members ++ pre)]> h, Some (CannotAddItself sp))).
Proof.
  intros Hsp. split.
  - intros shapes Hnotin.
    rewrite <- (app_nil_r shapes) at 1.
    rewrite (Add_app sp shapes [] Hnotin h members Hsp). reflexivity.
  - intros pre post Hnotin.
    rewrite (Add_app sp pre (sp :: post) Hnotin h members Hsp).
    simpl. rewrite decide_True by reflexivity. reflexivity.
Qed.

(** Adding circle 7 and then the Space itself to Space 1: the circle is
    appended, then the panic. *)
Lemma C8_Add_self_check_witness :
  Add space_in_space 1%nat [7%nat; 2%nat] =
    (<[1%nat := OSpace [7%nat; 2%nat]]> space_in_space, None) /\
  Add space_in_space 1%nat [7%nat; 1%nat; 2%nat] =
    (<[1%nat := OSpace [7%nat]]> space_in_space, Some (CannotAddItself 1%nat)).
Proof.
  destruct (C8_Add_self_check space_in_space 1%nat []) as [Hok Hself];
    [reflexivity|].
  split.
  - apply (Hok [7%nat; 2%nat]). intros Hin.
    apply elem_of_cons in Hin as [Hin|Hin]; [discriminate|].
    apply elem_of_cons in Hin as [Hin|Hin]; [discriminate|].
    apply elem_of_nil in Hin. exact Hin.
  - apply (Hself [7%nat] [2%nat]). intros Hin.
    apply elem_of_cons in Hin as [Hin|Hin]; [discriminate|].
    apply elem_of_nil in Hin. exact Hin.
Defined.

(** C8 as stated fails for a transitive cycle: Space 2 holds Space 1, and
    adding Space 2 to Space 1 returns without a panic, leaving Space 1
    holding itself through Space 2. *)
Lemma C8_counterexample :
  holds space_in_space 2%nat 1%nat /\
  Add space_in_space 1%nat [2%nat] =
    (<[1%nat := OSpace [2%nat]]> space_in_space, None) /\
  holds (fst (Add space_in_space 1%nat [2%nat])) 1%nat 1%nat.
Proof.
  split; [|split].
  - apply (holds_member _ 2%nat [1%nat]); [reflexivity | apply list_elem_of_here].
  - vm_compute. reflexivity.
  - apply (holds_nested _ 1%nat [2%nat] 2%nat); [reflexivity | apply list_elem_of_here |].
    apply (holds_member _ 2%nat [1%nat]); [reflexivity | apply list_elem_of_here].
Qed.

(** ** Space.WouldBeColliding *)







(** ** Space.SetXY *)

Lemma wrap_shift z k : Int32.wrap (z + k * 2 ^ 32) = Int32.wrap z.
Proof.
  unfold Int32.wrap. f_equal.
  replace (z + k * 2 ^ 32 + 2 ^ 31) with (z + 2 ^ 31 + k * 2 ^ 32) by lia.
  apply Z.mod_add. lia.
Qed.

Lemma wrap_decompose z : exists k, Int32.wrap z = z + k * 2 ^ 32.
Proof.
  exists (- ((z + 2 ^ 31) / 2 ^ 32)). unfold Int32.wrap.
  pose proof (Z.div_mod (z + 2 ^ 31) (2 ^ 32)). lia.
Qed.

(** Moving a member and the root by the same delta keeps their wrapped
    difference. *)
Lemma offset_preserved xm x0 x :
  Int32.sub (Int32.add xm (Int32.sub x x0)) x = Int32.sub xm x0.
Proof.
  unfold Int32.sub, Int32.add.
  destruct (wrap_decompose (x - x0)) as [k1 ->].
  destruct (wrap_decompose (xm + (x - x0 + k1 * 2 ^ 32))) as [k2 ->].
  replace (xm + (x - x0 + k1 * 2 ^ 32) + k2 * 2 ^ 32 - x)
    with (xm - x0 + (k1 + k2) * 2 ^ 32) by lia.
  apply wrap_shift.
Qed.

Lemma GetXY_position fuel (h : heap) r p :
  position h r = Some p -> GetXY (S fuel) h r = Ret p.
Proof.
  unfold position. simpl.
  destruct (h !! r) as [[c|b|l|sp| |t]|]; intros Hp; inversion Hp; reflexivity.
Qed.

Lemma Move_positioned fuel (h : heap) r dx dy x y :
  position h r = Some (x, y) ->
  exists o, Move (S fuel) h r dx dy = Ret (<[r := o]> h) /\
            position (<[r := o]> h) r = Some (Int32.add x dx, Int32.add y dy).
Proof.
  unfold position. simpl.
  destruct (h !! r) as [[c|b|l|sp| |t]|]; intros Hp; inversion Hp; subst;
    eexists; (split; [reflexivity|]); rewrite lookup_insert_eq; reflexivity.
Qed.

Lemma position_insert_ne (h : heap) r r' o :
  r <> r' -> position (<[r := o]> h) r' = position h r'.
Proof. intros Hne. unfold position. rewrite lookup_insert_ne by assumption. reflexivity. Qed.

Lemma Space_Move_distinct fuel dx dy (members : list ref) :
  NoDup members ->
  forall h : heap,
    Forall (fun r => is_Some (position h r)) members ->
    exists h',
      Space_Move (fun h0 shape => Move (S fuel) h0 shape dx dy) h members = Ret h' /\
      (forall r, r ∈ members -> position h' r = shift dx dy <$> position h r) /\
      (forall r, r ∉ members -> h' !! r = h !! r).
Proof.
  induction 1 as [|shape rest Hnotin Hnodup IH]; intros h Hall.
  - exists h. split; [reflexivity|]. split; [|reflexivity].
    intros r Hr. apply elem_of_nil in Hr. destruct Hr.
  - apply Forall_cons in Hall as [[[x y] Hshape] Hrest].
    destruct (Move_positioned fuel h shape dx dy x y Hshape) as (o & Hmove & Hpos).
    destruct (IH (<[shape := o]> h)) as (h' & Hrun & Hin & Hout).
    { apply Forall_forall. intros r Hr.
      rewrite position_insert_ne; [|intros ->; contradiction].
      revert r Hr. apply Forall_forall. exact Hrest. }
    exists h'. split; [|split].
    + change (Space_Move (fun h0 s => Move (S fuel) h0 s dx dy) h (shape :: rest))
        with (Move (S fuel) h shape dx dy ≫=
              fun h1 => Space_Move (fun h0 s => Move (S fuel) h0 s dx dy) h1 rest).
      rewrite Hmove. exact Hrun.
    + intros r Hr. apply elem_of_cons in Hr as [-> | Hr].
      * unfold position at 1. rewrite (Hout shape Hnotin).
        fold (position (<[shape := o]> h) shape). rewrite Hpos, Hshape. reflexivity.
      * rewrite (Hin r Hr). rewrite position_insert_ne; [reflexivity|].
        intros ->. contradiction.
    + intros r Hr. apply not_elem_of_cons in Hr as [Hne Hr].
      rewrite (Hout r Hr). apply lookup_insert_ne. congruence.
Qed.

(** *** Nested Spaces: what a Move reaches *)

Lemma collect_ext (f g : ref -> option (list ref)) (sp : list ref) :
  (forall m, m ∈ sp -> f m = g m) -> collect f sp = collect g sp.
Proof.
  induction sp as [|m rest IH]; intros Hext; [reflexivity|].
  simpl. rewrite (Hext m (list_elem_of_here _ _)).
  rewrite IH by (intros x Hx; apply Hext, list_elem_of_further, Hx). reflexivity.
Qed.

Lemma collect_mono (f g : ref -> option (list ref)) (sp : list ref) :
  (forall m lm, f m = Some lm -> g m = Some lm) ->
  forall l, collect f sp = Some l -> collect g sp = Some l.
Proof.
  intros Hfg. induction sp as [|m rest IH]; intros l Hl; [exact Hl|].
  simpl in *. destruct (f m) as [lm|] eqn:Hm; [|discriminate].
  rewrite (Hfg m lm Hm).
  destruct (collect f rest) as [ls|]; [|discriminate].
  rewrite (IH ls eq_refl). exact Hl.
Qed.

(** What a member contributes is part of what is collected. *)
Lemma collect_member (f : ref -> option (list ref)) (sp : list ref) :
  forall l, collect f sp = Some l ->
  forall m, m ∈ sp -> exists lm, f m = Some lm /\ forall x, x ∈ lm -> x ∈ l.
Proof.
  induction sp as [|s rest IH]; intros l Hl m Hm.
  - apply elem_of_nil in Hm. destruct Hm.
  - simpl in Hl. destruct (f s) as [lm|] eqn:Hs; [|discriminate].
    destruct (collect f rest) as [ls|] eqn:Hrest; [|discriminate].
    injection Hl as <-. apply elem_of_cons in Hm as [->|Hm].
    + exists lm. split; [exact Hs|]. intros x Hx. apply elem_of_app. left. exact Hx.
    + destruct (IH ls eq_refl m Hm) as (lm' & Hm' & Hsub).
      exists lm'. split; [exact Hm'|]. intros x Hx. apply elem_of_app. right.
      apply Hsub, Hx.
Qed.

(** What is collected comes from some member. *)
Lemma collect_elem (f : ref -> option (list ref)) (sp : list ref) :
  forall l, collect f sp = Some l ->
  forall x, x ∈ l -> exists m lm, m ∈ sp /\ f m = Some lm /\ x ∈ lm.
Proof.
  induction sp as [|s rest IH]; intros l Hl x Hx.
  - injection Hl as <-. apply elem_of_nil in Hx. destruct Hx.
  - simpl in Hl. destruct (f s) as [lm|] eqn:Hs; [|discriminate].
    destruct (collect f rest) as [ls|] eqn:Hrest; [|discriminate].
    injection Hl as <-. apply elem_of_app in Hx as [Hx|Hx].
    + exists s, lm. split; [apply list_elem_of_here | split; assumption].
    + destruct (IH ls eq_refl x Hx) as (m & lm' & Hm & Hfm & Hxm).
      exists m, lm'. split; [apply list_elem_of_further, Hm | split; assumption].
Qed.

Lemma reached_S (fuel : nat) (h : heap) (r : ref) :
  reached (S fuel) h r =
  match h !! r with
  | Some (OCircle _ | ORectangle _ | OLine _) => Some [r]
  | Some (OSpace sp) => collect (reached fuel h) sp
  | _ => None
  end.
Proof. reflexivity. Qed.

Lemma root_S (fuel : nat) (h : heap) (r : ref) :
  root (S fuel) h r =
  match h !! r with
  | Some (OCircle _ | ORectangle _ | OLine _) => Some r
  | Some (OSpace (first :: _)) => root fuel h first
  | _ => None
  end.
Proof. reflexivity. Qed.

Lemma skeleton_position (h : heap) (r : ref) :
  is_Some (position h r) <-> skeleton (h !! r) = Some None.
Proof.
  unfold position, skeleton.
  destruct (h !! r) as [[c|b|l|sp| |t]|]; split; intros Hp;
    try reflexivity; try discriminate; try (eexists; reflexivity);
    destruct Hp as [p Hp]; discriminate.
Qed.

(** [reached] and [root] read the skeleton of the heap only. *)
Lemma reached_skeleton (h h' : heap) :
  (forall r, skeleton (h' !! r) = skeleton (h !! r)) ->
  forall fuel r, reached fuel h' r = reached fuel h r.
Proof.
  intros Hsk. induction fuel as [|fuel IH]; intros r; [reflexivity|].
  rewrite !reached_S. specialize (Hsk r). unfold skeleton in Hsk.
  destruct (h !! r) as [[c|b|l|sp| |t]|]; destruct (h' !! r) as [[c'|b'|l'|sp'| |t']|];
    try discriminate; try reflexivity.
  injection Hsk as ->. apply collect_ext. intros m _. apply IH.
Qed.

Lemma root_skeleton (h h' : heap) :
  (forall r, skeleton (h' !! r) = skeleton (h !! r)) ->
  forall fuel r, root fuel h' r = root fuel h r.
Proof.
  intros Hsk. induction fuel as [|fuel IH]; intros r; [reflexivity|].
  rewrite !root_S. specialize (Hsk r). unfold skeleton in Hsk.
  destruct (h !! r) as [[c|b|l|sp| |t]|]; destruct (h' !! r) as [[c'|b'|l'|sp'| |t']|];
    try discriminate; try reflexivity.
  injection Hsk as ->. destruct sp as [|first rest]; [reflexivity | apply IH].
Qed.

Lemma reached_mono (h : heap) (fuel : nat) :
  forall r l, reached fuel h r = Some l -> reached (S fuel) h r = Some l.
Proof.
  induction fuel as [|fuel IH]; intros r l Hl; [discriminate Hl|].
  rewrite reached_S in Hl. rewrite reached_S.
  destruct (h !! r) as [[c|b|ln|sp| |t]|]; try exact Hl.
  apply (collect_mono (reached fuel h)); [exact IH | exact Hl].
Qed.

Lemma root_mono (h : heap) (fuel : nat) :
  forall r r0, root fuel h r = Some r0 -> root (S fuel) h r = Some r0.
Proof.
  induction fuel as [|fuel IH]; intros r r0 Hr; [discriminate Hr|].
  rewrite root_S in Hr. rewrite root_S.
  destruct (h !! r) as [[c|b|ln|sp| |t]|]; try exact Hr.
  destruct sp as [|first rest]; [exact Hr | apply IH, Hr].
Qed.

(** What is reached is a circle, a rectangle or a line. *)
Lemma reached_positions (h : heap) (fuel : nat) :
  forall r l, reached fuel h r = Some l -> forall x, x ∈ l -> is_Some (position h x).
Proof.
  induction fuel as [|fuel IH]; intros r l Hl x Hx; [discriminate Hl|].
  rewrite reached_S in Hl.
  destruct (h !! r) as [[c|b|ln|sp| |t]|] eqn:Hr; try discriminate Hl;
    try (injection Hl as <-; apply list_elem_of_singleton in Hx as ->;
         unfold position; rewrite Hr; eexists; reflexivity).
  destruct (collect_elem _ sp l Hl x Hx) as (m & lm & _ & Hm & Hxm).
  apply (IH m lm Hm x Hxm).
Qed.

(** The root of a shape is among the shapes reached from it. *)
Lemma root_reached (h : heap) (fuel : nat) :
  forall r r0 l, root fuel h r = Some r0 -> reached fuel h r = Some l -> r0 ∈ l.
Proof.
  induction fuel as [|fuel IH]; intros r r0 l Hroot Hl; [discriminate Hl|].
  rewrite root_S in Hroot. rewrite reached_S in Hl.
  destruct (h !! r) as [[c|b|ln|sp| |t]|] eqn:Hr; try discriminate Hl;
    try (injection Hl as <-; injection Hroot as <-; apply list_elem_of_here).
  destruct sp as [|first rest]; [discriminate Hroot|].
  destruct (collect_member _ _ l Hl first (list_elem_of_here _ _)) as (lm & Hm & Hsub).
  apply Hsub, (IH first r0 lm Hroot Hm).
Qed.

(** [GetXY] reports the position of the root. *)
Lemma GetXY_root (h : heap) (fuel : nat) :
  forall r r0 p, root fuel h r = Some r0 -> position h r0 = Some p ->
    GetXY fuel h r = Ret p.
Proof.
  induction fuel as [|fuel IH]; intros r r0 p Hroot Hp; [discriminate Hroot|].
  rewrite root_S in Hroot.
  destruct (h !! r) as [[c|b|ln|sp| |t]|] eqn:Hr; try discriminate Hroot;
    try (injection Hroot as <-; apply GetXY_position, Hp).
  destruct sp as [|first rest]; [discriminate Hroot|].
  simpl. rewrite Hr. apply (IH first r0 p Hroot Hp).
Qed.

Lemma moved_by_skeleton dx dy l (h h' : heap) :
  (forall m, m ∈ l -> is_Some (position h m)) ->
  moved_by dx dy l h h' ->
  forall r, skeleton (h' !! r) = skeleton (h !! r).
Proof.
  intros Hpos [Hin Hout] r. destruct (decide (r ∈ l)) as [Hr|Hr].
  - destruct (Hpos r Hr) as [p Hp].
    assert (H1 : is_Some (position h r)) by (rewrite Hp; eexists; reflexivity).
    assert (H2 : is_Some (position h' r))
      by (rewrite (Hin r Hr), Hp; eexists; reflexivity).
    apply skeleton_position in H1, H2. congruence.
  - rewrite (Hout r Hr). reflexivity.
Qed.

Section MoveReached.
Variables (dx dy : Z) (fuel : nat).
Hypothesis IHfuel : forall (h : heap) r l,
  reached fuel h r = Some l -> NoDup l ->
  exists h', Move fuel h r dx dy = Ret h' /\ moved_by dx dy l h h'.

Lemma Space_Move_reached (sp : list ref) :
  forall (h : heap) l,
    collect (reached fuel h) sp = Some l -> NoDup l ->
    exists h',
      Space_Move (fun h0 shape => Move fuel h0 shape dx dy) h sp = Ret h' /\
      moved_by dx dy l h h'.
Proof.
  induction sp as [|m rest IH]; intros h l Hl Hnodup.
  - injection Hl as <-. exists h. split; [reflexivity|]. split; [|reflexivity].
    intros x Hx. apply elem_of_nil in Hx. destruct Hx.
  - simpl in Hl. destruct (reached fuel h m) as [lm|] eqn:Hm; [|discriminate].
    destruct (collect (reached fuel h) rest) as [ls|] eqn:Hrest; [|discriminate].
    injection Hl as <-. apply NoDup_app in Hnodup as (Hnm & Hdisj & Hns).
    destruct (IHfuel h m lm Hm Hnm) as (h1 & Hmove & Hin1 & Hout1).
    assert (Hsk : forall r, skeleton (h1 !! r) = skeleton (h !! r)).
    { apply (moved_by_skeleton dx dy lm);
        [apply (reached_positions h fuel m lm Hm) | split; assumption]. }
    assert (Hrest1 : collect (reached fuel h1) rest = Some ls).
    { rewrite <- Hrest. apply collect_ext. intros x _.
      apply reached_skeleton, Hsk. }
    destruct (IH h1 ls Hrest1 Hns) as (h' & Hrun & Hin2 & Hout2).
    exists h'. split; [|split].
    + cbn [Space_Move]. rewrite Hmove. exact Hrun.
    + intros x Hx. apply elem_of_app in Hx as [Hx|Hx].
      * unfold position at 1. rewrite (Hout2 x (Hdisj x Hx)).
        apply (Hin1 x Hx).
      * rewrite (Hin2 x Hx). unfold position at 1.
        rewrite Hout1; [reflexivity|]. intros Hxm. apply (Hdisj x Hxm Hx).
    + intros x Hx. rewrite Hout2, Hout1; [reflexivity| |];
        intros Hin; apply Hx, elem_of_app; [left|right]; exact Hin.
Qed.
End MoveReached.

(** [Move] returns when the shapes it reaches are pairwise distinct, has
    moved each of them once and has written nothing else. *)
Lemma Move_reached (dx dy : Z) (fuel : nat) :
  forall (h : heap) r l,
    reached fuel h r = Some l -> NoDup l ->
    exists h', Move fuel h r dx dy = Ret h' /\ moved_by dx dy l h h'.
Proof.
  induction fuel as [|fuel IH]; intros h r l Hl Hnodup; [discriminate Hl|].
  rewrite reached_S in Hl.
  destruct (h !! r) as [[c|b|ln|sp| |t]|] eqn:Hr; try discriminate Hl.
  1-3: injection Hl as <-;
    (assert (Hp : is_Some (position h r))
       by (unfold position; rewrite Hr; eexists; reflexivity));
    destruct Hp as [[x y] Hp];
    destruct (Move_positioned fuel h r dx dy x y Hp) as (o & Hmove & Hpos);
    exists (<[r := o]> h); (split; [exact Hmove|]); split;
    [ intros m Hm; apply list_elem_of_singleton in Hm as ->;
      rewrite Hpos, Hp; reflexivity
    | intros m Hm; apply lookup_insert_ne; intros ->; apply Hm, list_elem_of_here ].
  destruct (Space_Move_reached dx dy fuel IH sp h l Hl Hnodup) as (h' & Hrun & Hmoved).
  exists h'. split; [|exact Hmoved]. simpl. rewrite Hr. exact Hrun.
Qed.

(** C9, as amended: for a Space that holds circles, rectangles, lines and
    nested Spaces of them, in which no shape is reached twice and whose
    root (the first member, or the root of the first member) is one of
    those shapes, [SetXY x y] returns; the root is then at (x, y), which
    is what [GetXY] of the Space reports; every shape has moved by the
    same int32 delta (x - x0, y - y0), so that its wrapped offset from
    the root is unchanged; a member Space reports the position of its own
    root, moved by that delta; nothing else is written. *)
Theorem C9_SetXY_moves_all (fuel : nat) (h : heap) (sp r0 : ref)
    (members l : list ref) (x0 y0 x y : Z) :
  h !! sp = Some (OSpace members) ->
  reached (S fuel) h sp = Some l ->
  NoDup l ->
  root (S fuel) h sp = Some r0 ->
  position h r0 = Some (x0, y0) ->
  Int32.in_range x -> Int32.in_range y ->
  exists h',
    SetXY (S fuel) h sp x y = Ret h' /\
    position h' r0 = Some (x, y) /\
    GetXY (S fuel) h' sp = Ret (x, y) /\
    (forall m xm ym, m ∈ l -> position h m = Some (xm, ym) ->
       exists xm' ym',
         position h' m = Some (xm', ym') /\
         xm' = Int32.add xm (Int32.sub x x0) /\
         ym' = Int32.add ym (Int32.sub y y0) /\
         Int32.sub xm' x = Int32.sub xm x0 /\
         Int32.sub ym' y = Int32.sub ym y0) /\
    (forall m rm xm ym, m ∈ members ->
       root fuel h m = Some rm -> position h rm = Some (xm, ym) ->
       GetXY (S fuel) h' m =
       Ret (Int32.add xm (Int32.sub x x0), Int32.add ym (Int32.sub y y0))) /\
    (forall m, m ∉ l -> h' !! m = h !! m).
Proof.
  intros Hsp Hl Hnodup Hroot Hpos0 Hx Hy.
  assert (Hmembers : collect (reached fuel h) members = Some l)
    by (rewrite reached_S, Hsp in Hl; exact Hl).
  assert (Hmembers' : collect (reached (S fuel) h) members = Some l)
    by (apply (collect_mono (reached fuel h)); [apply reached_mono | exact Hmembers]).
  destruct (Space_Move_reached (Int32.sub x x0) (Int32.sub y y0) (S fuel)
              (Move_reached _ _ (S fuel)) members h l Hmembers' Hnodup)
    as (h' & Hrun & Hin & Hout).
  assert (Hsk : forall r, skeleton (h' !! r) = skeleton (h !! r)).
  { apply (moved_by_skeleton (Int32.sub x x0) (Int32.sub y y0) l);
      [apply (reached_positions h (S fuel) sp l Hl) | split; assumption]. }
  assert (Hr0 : r0 ∈ l) by apply (root_reached h (S fuel) sp r0 l Hroot Hl).
  assert (Hpos0' : position h' r0 = Some (x, y)).
  { rewrite (Hin r0 Hr0), Hpos0. simpl. unfold shift. simpl.
    rewrite !add_sub_cancel by assumption. reflexivity. }
  exists h'. split; [|split; [|split; [|split; [|split]]]].
  - unfold SetXY. rewrite Hsp.
    assert (Hlen : (0 <? length members)%nat = true).
    { rewrite root_S, Hsp in Hroot. destruct members; [discriminate Hroot | reflexivity]. }
    rewrite Hlen. rewrite (GetXY_root h (S fuel) sp r0 (x0, y0) Hroot Hpos0).
    exact Hrun.
  - exact Hpos0'.
  - apply (GetXY_root h' (S fuel) sp r0); [|exact Hpos0'].
    rewrite (root_skeleton h h' Hsk). exact Hroot.
  - intros m xm ym Hm Hpos.
    exists (Int32.add xm (Int32.sub x x0)), (Int32.add ym (Int32.sub y y0)).
    split; [|split; [reflexivity|split; [reflexivity|]]].
    + rewrite (Hin m Hm), Hpos. reflexivity.
    + split; apply offset_preserved.
  - intros m rm xm ym Hm Hrm Hposm.
    destruct (collect_member _ _ l Hmembers m Hm) as (lm & Hlm & Hsub).
    assert (Hin_l : rm ∈ l) by apply Hsub, (root_reached h fuel m rm lm Hrm Hlm).
    apply (GetXY_root h' (S fuel) m rm).
    + rewrite (root_skeleton h h' Hsk). apply root_mono, Hrm.
    + rewrite (Hin rm Hin_l), Hposm. reflexivity.
  - exact Hout.
Qed.

(** [circle_then_space]: moving Space 4 to (5,5) puts its root, circle 1,
    at (5,5) and takes circle 2, inside the member Space 3, from (10,20)
    to (14,23), which is what Space 3 then reports. *)
Lemma C9_SetXY_moves_all_witness :
  exists h',
    SetXY 3 circle_then_space 4%nat 5 5 = Ret h' /\
    GetXY 3 h' 4%nat = Ret (5, 5) /\
    position h' 2%nat = Some (14, 23) /\
    GetXY 3 h' 3%nat = Ret (14, 23).
Proof.
  destruct (C9_SetXY_moves_all 2 circle_then_space 4%nat 1%nat [1%nat; 3%nat]
              [1%nat; 2%nat] 1 2 5 5)
    as (h' & Hrun & _ & Hget & Hmoved & Hmember & _).
  - reflexivity.
  - reflexivity.
  - apply NoDup_cons. split.
    + intros Hin. apply elem_of_cons in Hin as [Hin|Hin]; [discriminate|].
      apply elem_of_nil in Hin. exact Hin.
    + apply NoDup_cons. split; [|apply NoDup_nil_2].
      intros Hin. apply elem_of_nil in Hin. exact Hin.
  - reflexivity.
  - reflexivity.
  - vm_compute. split; discriminate.
  - vm_compute. split; discriminate.
  - exists h'. split; [exact Hrun|]. split; [exact Hget|]. split.
    + destruct (Hmoved 2%nat 10 20) as (xm' & ym' & Hpos & -> & -> & _).
      * apply list_elem_of_further, list_elem_of_here.
      * reflexivity.
      * exact Hpos.
    + apply (Hmember 3%nat 2%nat 10 20);
        [apply list_elem_of_further, list_elem_of_here | reflexivity | reflexivity].
Defined.

(** C9 as stated fails in three ways.  When the root is an empty Space it
    has no position to move: after [SetXY 5 5] the Space still reports
    (0, 0).  A shape that is reached twice is moved twice: the only
    circle of [circle_twice] starts at (1,1) and [SetXY 5 5] leaves it,
    and so the Space, at (9,9).  And on a member that is the nil Shape
    the call panics, after the members before it have been moved. *)
Lemma C9_counterexample :
  (space_in_space !! 2%nat = Some (OSpace [1%nat]) /\
   SetXY 3 space_in_space 2%nat 5 5 = Ret space_in_space /\
   GetXY 3 space_in_space 2%nat = Ret (0, 0)) /\
  (circle_twice !! 2%nat = Some (OSpace [1%nat; 1%nat]) /\
   (h' ← SetXY 3 circle_twice 2%nat 5 5; GetXY 3 h' 2%nat) = Ret (9, 9)) /\
  (circle_then_nil !! 3%nat = Some (OSpace [1%nat; 2%nat]) /\
   circle_then_nil !! 2%nat = None /\
   SetXY 3 circle_then_nil 3%nat 5 5 = Panic NilDereference).
Proof. repeat split; vm_compute; reflexivity. Qed.

(** ** float64 facts *)

Module FloatFacts.
Import Float64.

Lemma digits2_pos_bounds (p : positive) :
  2 ^ (Zpos (digits2_pos p) - 1) <= Zpos p < 2 ^ Zpos (digits2_pos p).
Proof.
  assert (Hstep : forall d : positive, 2 ^ Zpos d = 2 * 2 ^ (Zpos d - 1)).
  { intros d. rewrite <- Z.pow_succ_r by lia. f_equal. lia. }
  induction p as [p IH|p IH|]; simpl digits2_pos.
  - rewrite Pos2Z.inj_succ, Z.pow_succ_r by lia.
    replace (Z.succ (Zpos (digits2_pos p)) - 1) with (Zpos (digits2_pos p)) by lia.
    rewrite Hstep in *. lia.
  - rewrite Pos2Z.inj_succ, Z.pow_succ_r by lia.
    replace (Z.succ (Zpos (digits2_pos p)) - 1) with (Zpos (digits2_pos p)) by lia.
    rewrite Hstep in *. lia.
  - simpl. lia.
Qed.

Lemma iter_xO_digits (p k : positive) :
  digits2_pos (Pos.iter xO p k) = (digits2_pos p + k)%positive.
Proof.
  induction k as [|k IH] using Pos.peano_ind.
  - simpl. lia.
  - rewrite Pos.iter_succ. simpl. rewrite IH. lia.
Qed.

Lemma iter_xO_value (p k : positive) :
  Zpos (Pos.iter xO p k) = Zpos p * 2 ^ Zpos k.
Proof.
  induction k as [|k IH] using Pos.peano_ind.
  - simpl. lia.
  - rewrite Pos.iter_succ, Pos2Z.inj_succ, Z.pow_succ_r by lia.
    rewrite Pos2Z.inj_xO, IH. lia.
Qed.

Lemma shr_fexp_exact (m : positive) (e : Z) :
  Zpos (digits2_pos m) = 53 -> -1074 <= e ->
  shr_fexp prec emax (Zpos m) e loc_Exact =
  ({| shr_m := Zpos m; shr_r := false; shr_s := false |}, e).
Proof.
  intros Hd He. unfold shr_fexp.
  assert (Hn : fexp prec emax (Zdigits2 (Zpos m) + e) - e = 0).
  { unfold Zdigits2. rewrite Hd. unfold fexp, emin, prec, emax. lia. }
  change (IntDef.Z.sub (fexp prec emax (IntDef.Z.add (Zdigits2 (Zpos m)) e)) e)
    with (fexp prec emax (Zdigits2 (Zpos m) + e) - e).
  rewrite Hn. reflexivity.
Qed.

(** A 53-bit mantissa with an exponent in range is already rounded. *)
Lemma round_aux_exact (s : bool) (m : positive) (e : Z) :
  Zpos (digits2_pos m) = 53 -> -1074 <= e <= 971 ->
  binary_round_aux prec emax s (Zpos m) e loc_Exact = S754_finite s m e.
Proof.
  intros Hd [Hlo Hhi]. unfold binary_round_aux.
  rewrite (shr_fexp_exact m e Hd Hlo).
  cbn [shr_m loc_of_shr_record round_nearest_even].
  rewrite (shr_fexp_exact m e Hd Hlo).
  cbn [shr_m].
  change (IntDef.Z.leb e (IntDef.Z.sub emax prec)) with (e <=? 971).
  destruct (Z.leb_spec e 971); [reflexivity|lia].
Qed.

(** A positive integer below 2^53 converts exactly. *)
Lemma normalize_small (s : bool) (p : positive) :
  Zpos p < 2 ^ 53 ->
  exists m e,
    binary_round prec emax s p 0 = S754_finite s m e /\
    Zpos (digits2_pos m) = 53 /\
    e = Zpos (digits2_pos p) - 53 /\
    e <= 0 /\
    Zpos m = Zpos p * 2 ^ (- e).
Proof.
  intros Hp.
  pose proof (digits2_pos_bounds p) as [Hlo Hhi].
  assert (Hd : Zpos (digits2_pos p) <= 53).
  { destruct (Z_le_gt_dec (Zpos (digits2_pos p)) 53) as [|Hgt]; [assumption|].
    assert (2 ^ 53 <= 2 ^ (Zpos (digits2_pos p) - 1)) by (apply Z.pow_le_mono_r; lia).
    lia. }
  unfold binary_round.
  assert (Hf : fexp prec emax (Zpos (digits2_pos p) + 0) = Zpos (digits2_pos p) - 53).
  { unfold fexp, emin, prec, emax. lia. }
  change (IntDef.Z.add (Zpos (digits2_pos p)) 0) with (Zpos (digits2_pos p) + 0).
  rewrite Hf. unfold shl_align.
  change (IntDef.Z.sub (Zpos (digits2_pos p) - 53) 0) with (Zpos (digits2_pos p) - 53 - 0).
  destruct (Zpos (digits2_pos p) - 53 - 0) as [|k|k] eqn:Hk; [|lia|].
  - exists p, 0. split; [|split; [|split; [|split]]].
    + apply round_aux_exact; lia.
    + lia.
    + lia.
    + lia.
    + simpl. lia.
  - exists (Pos.iter xO p k), (Zpos (digits2_pos p) - 53).
    assert (Hdig : Zpos (digits2_pos (Pos.iter xO p k)) = 53)
      by (rewrite iter_xO_digits; lia).
    split; [|split; [|split; [|split]]].
    + apply round_aux_exact; [exact Hdig | lia].
    + exact Hdig.
    + reflexivity.
    + lia.
    + rewrite iter_xO_value. f_equal. f_equal. lia.
Qed.


Lemma SFleb_small (a b : positive) :
  Zpos a < 2 ^ 53 -> Zpos b < 2 ^ 53 ->
  SFleb (binary_round prec emax false a 0) (binary_round prec emax false b 0)
  = (Zpos a <=? Zpos b).
Proof.
  intros Ha Hb.
  destruct (normalize_small false a Ha) as (ma & ea & -> & Hda & Hea & Hea0 & Hma).
  destruct (normalize_small false b Hb) as (mb & eb & -> & Hdb & Heb & Heb0 & Hmb).
  pose proof (digits2_pos_bounds a) as [Hloa Hhia].
  pose proof (digits2_pos_bounds b) as [Hlob Hhib].
  unfold SFleb, SFcompare.
  change (IntDef.Z.compare ea eb) with (ea ?= eb).
  destruct (Z.compare_spec ea eb) as [Heq|Hlt|Hgt].
  - rewrite Pos.compare_cont_spec. simpl Pos.switch_Eq.
    change (Pos.compare ma mb) with (Zpos ma ?= Zpos mb).
    rewrite Hma, Hmb, Heq.
    assert (Hpow : 0 < 2 ^ (- eb)) by (apply Z.pow_pos_nonneg; lia).
    destruct (Z.compare_spec (Zpos a * 2 ^ (- eb)) (Zpos b * 2 ^ (- eb))) as [H|H|H];
      symmetry.
    + apply Z.leb_le. apply (Z.mul_le_mono_pos_r _ _ _ Hpow). lia.
    + apply Z.leb_le. apply (Z.mul_le_mono_pos_r _ _ _ Hpow). lia.
    + apply Z.leb_gt. apply (Z.mul_lt_mono_pos_r _ _ _ Hpow). lia.
  - symmetry. apply Z.leb_le.
    assert (2 ^ Zpos (digits2_pos a) <= 2 ^ (Zpos (digits2_pos b) - 1))
      by (apply Z.pow_le_mono_r; lia).
    lia.
  - symmetry. apply Z.leb_gt.
    assert (2 ^ Zpos (digits2_pos b) <= 2 ^ (Zpos (digits2_pos a) - 1))
      by (apply Z.pow_le_mono_r; lia).
    lia.
Qed.

Lemma Prim2SF_of_int (z : Z) :
  - 2 ^ 53 < z < 2 ^ 53 ->
  Prim2SF (Float64.of_int z) =
  match z with
  | 0 => S754_zero false
  | Zpos p => binary_round prec emax false p 0
  | Zneg p => SFopp (binary_round prec emax false p 0)
  end.
Proof.
  intros Hz. unfold Float64.of_int.
  assert (Hphi : forall p, Zpos p < 2 ^ 53 ->
            Prim2SF (of_uint63 (Uint63.of_Z (Zpos p))) = binary_round prec emax false p 0).
  { intros p Hp. rewrite of_uint63_spec, Uint63.of_Z_spec.
    rewrite Z.mod_small; [reflexivity|].
    change wB with (2 ^ 63). split; [lia|].
    assert (2 ^ 53 < 2 ^ 63) by (apply Z.pow_lt_mono_r; lia). lia. }
  destruct z as [|p|p].
  - reflexivity.
  - change (Zpos p <? 0) with false. cbv iota. apply Hphi. lia.
  - change (Zneg p <? 0) with true. cbv iota.
    rewrite FloatAxioms.opp_spec. change (- Zneg p) with (Zpos p). rewrite Hphi by lia. reflexivity.
Qed.

(** Comparing two converted integers is comparing the integers. *)
Lemma of_int_leb (a b : Z) :
  0 <= a < 2 ^ 53 -> - 2 ^ 53 < b < 2 ^ 53 ->
  PrimFloat.leb (Float64.of_int a) (Float64.of_int b) = (a <=? b).
Proof.
  intros Ha Hb. rewrite FloatAxioms.leb_spec, !Prim2SF_of_int by lia.
  destruct a as [|a|a]; [| |lia]; destruct b as [|b|b].
  - reflexivity.
  - destruct (normalize_small false b) as (m & e & -> & _); [lia|]. reflexivity.
  - destruct (normalize_small false b) as (m & e & -> & _); [lia|]. reflexivity.
  - destruct (normalize_small false a) as (m & e & -> & _); [lia|]. reflexivity.
  - apply SFleb_small; lia.
  - destruct (normalize_small false a) as (m & e & -> & _); [lia|].
    destruct (normalize_small false b) as (m' & e' & -> & _); [lia|]. reflexivity.
Qed.

(** ** Signs: nothing computed from a square root is negative *)

Lemma round_aux_not_negative m e l :
  not_negative (binary_round_aux prec emax false m e l) = true.
Proof.
  unfold binary_round_aux.
  destruct (shr_fexp prec emax m e l) as [mrs' e'].
  destruct (shr_fexp prec emax _ e' loc_Exact) as [mrs'' e''].
  destruct (shr_m mrs''); [reflexivity| |reflexivity].
  destruct (IntDef.Z.leb e'' (IntDef.Z.sub emax prec)); reflexivity.
Qed.

Lemma SFsqrt_not_negative x : not_negative (SF64sqrt x) = true.
Proof.
  unfold SF64sqrt, SFsqrt. destruct x as [s|[|]| |[|] m e]; try reflexivity.
  destruct (SFsqrt_core_binary prec emax (Zpos m) e) as [[mz ez] lz].
  apply round_aux_not_negative.
Qed.

Lemma twice_not_negative x :
  not_negative x = true -> not_negative (SF64mul (Prim2SF 2%float) x) = true.
Proof.
  change (Prim2SF 2%float) with (S754_finite false 4503599627370496 (-51)).
  unfold SF64mul, SFmul. destruct x as [s|[|]| |[|] m e]; intros Hx;
    try reflexivity; try discriminate.
  apply round_aux_not_negative.
Qed.


End FloatFacts.

(** ** Circle against Line *)

Lemma Distance_small x y x2 y2 :
  Int32.in_range x -> Int32.in_range y -> Int32.in_range x2 -> Int32.in_range y2 ->
  0 <= Distance x y x2 y2 < 2 ^ 53.
Proof.
  intros _ _ _ _. pose proof (Distance_in_range x y x2 y2) as [_ Hhi].
  split; [apply Distance_nonneg|]. unfold Int32.max_int in Hhi. lia.
Qed.

Lemma in_range_small z : Int32.in_range z -> - 2 ^ 53 < z < 2 ^ 53.
Proof. unfold Int32.in_range, Int32.min_int, Int32.max_int. lia. Qed.

Section TriangleTest.
Variables (c : Circle) (l : Line).
Hypothesis Hc : Circle_in_range c.
Hypothesis Hl : Line_in_range l.

(** Step 1 compares the integer distances with the radius. *)
Lemma endpointInside_spec :
  Triangle.endpointInside c l =
  (Distance (X c) (Y c) (X l) (Y l) <=? Radius c)
  || (Distance (X c) (Y c) (X2 l) (Y2 l) <=? Radius c).
Proof.
  destruct Hc as (HX & HY & HR). destruct Hl as (HlX & HlY & HlX2 & HlY2).
  unfold Triangle.endpointInside, Triangle.AC, Triangle.CB.
  rewrite !FloatFacts.of_int_leb;
    auto using Distance_small, in_range_small.
Qed.

Lemma isCollidingWithLine_inside :
  Distance (X c) (Y c) (X l) (Y l) <= Radius c \/
  Distance (X c) (Y c) (X2 l) (Y2 l) <= Radius c ->
  isCollidingWithLine c l = true.
Proof.
  intros Hin. unfold isCollidingWithLine. rewrite endpointInside_spec.
  destruct Hin as [Hin|Hin]; apply Z.leb_le in Hin; rewrite Hin;
    [|rewrite orb_true_r]; reflexivity.
Qed.
End TriangleTest.

(** C1: the triangle test misses a segment that runs through the centre
    of the circle.  For the circle at (0,0) of radius 1 and the segment
    (-2,-2)-(2,2) the centre is the midpoint of the segment and the
    direct test reports a collision; but the sides come out as the
    integers 2, 2 and 5, which form no triangle, Heron's product is
    negative, the altitude h is NaN, the comparison h <= Radius fails and
    [Circle.IsColliding] answers false. *)
Theorem C1_segment_through_centre_missed :
  let c := NewCircle 0 0 1 in
  let l := NewLine (-2) (-2) 2 2 in
  0 <= Radius c /\ 0 < GetLength l /\
  (2 * X c = X l + X2 l /\ 2 * Y c = Y l + Y2 l) /\
  segmentWithinRadius c l = true /\
  (Distance (X c) (Y c) (X l) (Y l) = 2 /\
   Distance (X c) (Y c) (X2 l) (Y2 l) = 2 /\
   GetLength l = 5) /\
  PrimFloat.is_nan
    (Triangle.height (Triangle.AC c l) (Triangle.CB c l) (Triangle.BA l)) = true /\
  IsColliding 1 (circle_and_line c l) 1%nat 2%nat = Ret (false, []).
Proof. vm_compute. repeat split; discriminate. Qed.

(** The two scenarios of the spec: the circle at (0,0) of radius 2 does
    not collide with the segment (5,-5)-(5,5) and collides with the
    segment (1,-5)-(1,5); the direct test agrees on both. *)
Example triangle_test_scenarios :
  (IsColliding 1 (circle_and_line (NewCircle 0 0 2) (NewLine 5 (-5) 5 5)) 1%nat 2%nat
     = Ret (false, []) /\
   segmentWithinRadius (NewCircle 0 0 2) (NewLine 5 (-5) 5 5) = false) /\
  (IsColliding 1 (circle_and_line (NewCircle 0 0 2) (NewLine 1 (-5) 1 5)) 1%nat 2%nat
     = Ret (true, []) /\
   segmentWithinRadius (NewCircle 0 0 2) (NewLine 1 (-5) 1 5) = true).
Proof. vm_compute. repeat split. Qed.

(** The test also reports collisions that are none: the segment
    (2,1)-(3,1) stays at distance sqrt 5 > 2 from the origin, but the
    distance to (2,1) comes out as 2 and step 1 reports a collision with
    the circle of radius 2. *)
Example triangle_test_truncated_endpoint :
  let c := NewCircle 0 0 2 in
  let l := NewLine 2 1 3 1 in
  0 <= Radius c /\ 0 < GetLength l /\
  segmentWithinRadius c l = false /\
  IsColliding 1 (circle_and_line c l) 1%nat 2%nat = Ret (true, []).
Proof. vm_compute. repeat split; discriminate. Qed.

(** With exact side lengths the int32 product [Radius * Radius] can still
    wrap: radius 46341 against the segment (46342,0)-(111877,0). *)
Example triangle_test_radius_overflow :
  let c := NewCircle 0 0 46341 in
  let l := NewLine 46342 0 111877 0 in
  Int32.mul (Radius c) (Radius c) = -2147479015 /\
  segmentWithinRadius c l = false /\
  isCollidingWithLine c l = true.
Proof. vm_compute. repeat split. Qed.

(** ** Degenerate lines *)






(** * Further properties of the Space container *)

(** ** Membership: Contains, Get, Length *)

Lemma Contains_elem (sp : list ref) (x : ref) : Contains sp x = true <-> x ∈ sp.
Proof.
  induction sp as [|s rest IH]; simpl.
  - split; [discriminate|]. intros Hin. apply elem_of_nil in Hin. destruct Hin.
  - destruct (decide (s = x)) as [->|Hne].
    + split; [intros _; apply list_elem_of_here | reflexivity].
    + rewrite IH. split; [apply list_elem_of_further|].
      intros Hin. apply elem_of_cons in Hin as [->|Hin]; [congruence | exact Hin].
Qed.

Lemma Contains_app (sp sp' : list ref) (x : ref) :
  Contains (sp ++ sp') x = Contains sp x || Contains sp' x.
Proof.
  induction sp as [|s rest IH]; simpl; [reflexivity|].
  destruct (decide (s = x)); [reflexivity | exact IH].
Qed.

Lemma Get_lookup (sp : list ref) (index : Z) :
  0 <= index < Length sp -> Get sp index = sp !! Z.to_nat index.
Proof.
  intros [Hlo Hhi]. unfold Get.
  destruct (Z.ltb_spec index 0); [lia|].
  destruct (Z.leb_spec (Length sp) index); [lia|]. reflexivity.
Qed.

(** X1: [Get] panics exactly when the index is negative or not below
    [Length]; the shapes it can return are the ones [Contains] finds. *)
Theorem X1_Get_bounds_Contains (sp : list ref) :
  (forall index, is_Some (Get sp index) <-> 0 <= index < Length sp) /\
  (forall x, Contains sp x = true <-> exists index, Get sp index = Some x).
Proof.
  split.
  - intros index. unfold Get, Length.
    destruct (Z.ltb_spec index 0) as [Hneg|Hpos]; simpl.
    + split; [intros [s Hs]; discriminate | lia].
    + destruct (Z.leb_spec (Z.of_nat (length sp)) index) as [Hbig|Hsmall]; simpl.
      * split; [intros [s Hs]; discriminate | lia].
      * split; [lia|]. intros _. apply lookup_lt_is_Some. lia.
  - intros x. rewrite Contains_elem, list_elem_of_lookup. split.
    + intros [i Hi]. exists (Z.of_nat i).
      rewrite Get_lookup, Nat2Z.id; [exact Hi|].
      apply lookup_lt_Some in Hi. unfold Length. lia.
    + intros [index Hget]. unfold Get in Hget.
      destruct ((index <? 0) || (Length sp <=? index)); [discriminate|].
      exists (Z.to_nat index). exact Hget.
Qed.

(** ** Add, Remove and Clear *)

Lemma Add_no_self (h : heap) (sp : ref) (members shapes : list ref) :
  h !! sp = Some (OSpace members) -> sp ∉ shapes ->
  Add h sp shapes = (<[sp := OSpace (members ++ shapes)]> h, None).
Proof.
  intros Hsp Hnotin. rewrite <- (app_nil_r shapes) at 1.
  rewrite (Add_app sp shapes [] Hnotin h members Hsp). reflexivity.
Qed.

(** X2: after an [Add] that has no reason to panic, [Length] has grown by
    the number of arguments, every old index still holds its shape, the
    new shapes follow in the order given, and [Contains] finds the old
    and the new shapes and no other. *)
Theorem X2_Add_then_Get (h : heap) (sp : ref) (members shapes : list ref) :
  h !! sp = Some (OSpace members) ->
  sp ∉ shapes ->
  exists members',
    fst (Add h sp shapes) !! sp = Some (OSpace members') /\
    snd (Add h sp shapes) = None /\
    Length members' = Length members + Length shapes /\
    (forall i, 0 <= i < Length members -> Get members' i = Get members i) /\
    (forall i, 0 <= i < Length shapes ->
       Get members' (Length members + i) = Get shapes i) /\
    (forall x, Contains members' x = Contains members x || Contains shapes x).
Proof.
  intros Hsp Hnotin. exists (members ++ shapes).
  rewrite (Add_no_self h sp members shapes Hsp Hnotin). simpl.
  split; [apply lookup_insert_eq|]. split; [reflexivity|].
  assert (Hlen : Length (members ++ shapes) = Length members + Length shapes)
    by (unfold Length; rewrite length_app; lia).
  assert (Hm : 0 <= Length members) by (unfold Length; lia).
  assert (Hs : 0 <= Length shapes) by (unfold Length; lia).
  split; [exact Hlen|]. split; [|split].
  - intros i Hi. rewrite !Get_lookup by lia.
    apply lookup_app_l. unfold Length in Hi. lia.
  - intros i Hi. rewrite !Get_lookup by lia.
    rewrite lookup_app_r by (unfold Length in *; lia).
    f_equal. unfold Length. lia.
  - intros x. apply Contains_app.
Qed.

Lemma X2_Add_then_Get_witness :
  exists members',
    fst (Add space_in_space 1%nat [7%nat; 2%nat]) !! 1%nat = Some (OSpace members') /\
    Length members' = 2 /\
    Get members' 1 = Some 2%nat /\
    Contains members' 7%nat = true.
Proof.
  destruct (X2_Add_then_Get space_in_space 1%nat [] [7%nat; 2%nat])
    as (members' & Hsp & _ & Hlen & _ & Hnew & Hcontains).
  - reflexivity.
  - intros Hin. apply elem_of_cons in Hin as [Hin|Hin]; [discriminate|].
    apply elem_of_cons in Hin as [Hin|Hin]; [discriminate|].
    apply elem_of_nil in Hin. exact Hin.
  - exists members'. split; [exact Hsp|]. split; [exact Hlen|]. split.
    + apply (Hnew 1). vm_compute. split; [discriminate | reflexivity].
    + rewrite Hcontains. reflexivity.
Defined.

Lemma remove_first_absent (sp : list ref) (x : ref) :
  x ∉ sp -> remove_first sp x = None.
Proof.
  induction sp as [|s rest IH]; intros Hnotin; [reflexivity|].
  apply not_elem_of_cons in Hnotin as [Hne Hnotin].
  simpl. rewrite decide_False by congruence. rewrite (IH Hnotin). reflexivity.
Qed.

Lemma remove_first_split (pre post : list ref) (x : ref) :
  x ∉ pre -> remove_first (pre ++ x :: post) x = Some (pre ++ post).
Proof.
  induction pre as [|s pre IH]; intros Hnotin; simpl.
  - rewrite decide_True by reflexivity. reflexivity.
  - apply not_elem_of_cons in Hnotin as [Hne Hnotin].
    rewrite decide_False by congruence. rewrite (IH Hnotin). reflexivity.
Qed.

(** X3: [Remove] of a shape the Space does not hold changes nothing;
    otherwise it takes out the first occurrence only, the other members
    keep their order, and a later occurrence is still found by
    [Contains]. *)
Theorem X3_Remove_first_occurrence (h : heap) (sp : ref) (members : list ref)
    (x : ref) :
  h !! sp = Some (OSpace members) ->
  (x ∉ members -> Remove h sp [x] = (h, None)) /\
  (forall pre post, members = pre ++ x :: post -> x ∉ pre ->
     Remove h sp [x] = (<[sp := OSpace (pre ++ post)]> h, None) /\
     Length (pre ++ post) = Length members - 1 /\
     Contains (pre ++ post) x = Contains post x).
Proof.
  intros Hsp. split.
  - intros Hnotin. simpl. rewrite Hsp, (remove_first_absent _ _ Hnotin). reflexivity.
  - intros pre post -> Hnotin. split; [|split].
    + simpl. rewrite Hsp, (remove_first_split _ _ _ Hnotin). reflexivity.
    + unfold Length. rewrite !length_app. simpl. lia.
    + rewrite Contains_app.
      destruct (Contains pre x) eqn:Hc; [|reflexivity].
      apply Contains_elem in Hc. contradiction.
Qed.

Lemma X3_Remove_first_occurrence_witness :
  Remove circle_twice 2%nat [7%nat] = (circle_twice, None) /\
  Remove circle_twice 2%nat [1%nat] = (<[2%nat := OSpace [1%nat]]> circle_twice, None).
Proof.
  destruct (X3_Remove_first_occurrence circle_twice 2%nat [1%nat; 1%nat] 7%nat)
    as [Habsent _]; [reflexivity|].
  destruct (X3_Remove_first_occurrence circle_twice 2%nat [1%nat; 1%nat] 1%nat)
    as [_ Hfirst]; [reflexivity|].
  split.
  - apply Habsent. intros Hin.
    apply elem_of_cons in Hin as [Hin|Hin]; [discriminate|].
    apply elem_of_cons in Hin as [Hin|Hin]; [discriminate|].
    apply elem_of_nil in Hin. exact Hin.
  - destruct (Hfirst [] [1%nat]) as [Hrun _]; [reflexivity | apply not_elem_of_nil|].
    exact Hrun.
Defined.

Lemma Remove_appended (sp : ref) (shapes : list ref) :
  forall (h : heap) (members : list ref),
    (forall x, x ∈ shapes -> x ∉ members) ->
    Remove (<[sp := OSpace (members ++ shapes)]> h) sp shapes =
    (<[sp := OSpace members]> h, None).
Proof.
  induction shapes as [|x shapes IH]; intros h members Hfresh.
  - rewrite app_nil_r. reflexivity.
  - simpl. rewrite lookup_insert_eq.
    rewrite remove_first_split by (apply Hfresh, list_elem_of_here).
    rewrite insert_insert_eq. apply IH.
    intros y Hy. apply Hfresh, list_elem_of_further, Hy.
Qed.

(** X4: adding shapes the Space does not hold yet and removing them
    again gives back the heap as it was, members and their order
    included. *)
Theorem X4_Add_Remove_round_trip (h : heap) (sp : ref) (members shapes : list ref) :
  h !! sp = Some (OSpace members) ->
  sp ∉ shapes ->
  (forall x, x ∈ shapes -> x ∉ members) ->
  Remove (fst (Add h sp shapes)) sp shapes = (h, None).
Proof.
  intros Hsp Hnotin Hfresh.
  rewrite (Add_no_self h sp members shapes Hsp Hnotin). simpl.
  rewrite (Remove_appended sp shapes h members Hfresh).
  rewrite insert_id by exact Hsp. reflexivity.
Qed.

Lemma X4_Add_Remove_round_trip_witness :
  Remove (fst (Add three_in_space 4%nat [7%nat; 7%nat])) 4%nat [7%nat; 7%nat]
  = (three_in_space, None).
Proof.
  apply (X4_Add_Remove_round_trip three_in_space 4%nat [1%nat; 2%nat; 3%nat]).
  - reflexivity.
  - intros Hin. apply elem_of_cons in Hin as [Hin|Hin]; [discriminate|].
    apply elem_of_cons in Hin as [Hin|Hin]; [discriminate|].
    apply elem_of_nil in Hin. exact Hin.
  - intros x Hx Hin.
    assert (x = 7%nat) as ->.
    { apply elem_of_cons in Hx as [Hx|Hx]; [exact Hx|].
      apply elem_of_cons in Hx as [Hx|Hx]; [exact Hx|].
      apply elem_of_nil in Hx. destruct Hx. }
    apply elem_of_cons in Hin as [Hin|Hin]; [discriminate|].
    apply elem_of_cons in Hin as [Hin|Hin]; [discriminate|].
    apply elem_of_cons in Hin as [Hin|Hin]; [discriminate|].
    apply elem_of_nil in Hin. exact Hin.
Defined.

(** The round trip needs the shape to be new: removing takes the first
    occurrence, so a shape already held moves to the end. *)
Example Add_Remove_reorders :
  let h : heap := {[ 1%nat := OSpace [7%nat; 8%nat] ]} in
  Remove (fst (Add h 1%nat [7%nat])) 1%nat [7%nat] =
  (<[1%nat := OSpace [8%nat; 7%nat]]> h, None).
Proof. vm_compute. reflexivity. Qed.

(** X5: a Space that [Clear] has emptied has length 0 and holds nothing;
    it collides with nothing and would not after any move, its position
    reads (0, 0), and [Move] and [SetXY] leave the heap as it is.  No
    other object is touched by [Clear]. *)
Theorem X5_Clear_empties (h : heap) (sp : ref) (members : list ref) :
  h !! sp = Some (OSpace members) ->
  exists h',
    Clear h sp = (h', None) /\
    h' !! sp = Some (OSpace []) /\
    (forall r, r <> sp -> h' !! r = h !! r) /\
    (forall fuel shape dx dy x y,
       IsColliding (S fuel) h' sp shape = Ret (false, []) /\
       WouldBeColliding (S fuel) h' sp shape dx dy = Ret (false, h', []) /\
       GetXY (S fuel) h' sp = Ret (0, 0) /\
       Move (S fuel) h' sp dx dy = Ret h' /\
       SetXY fuel h' sp x y = Ret h').
Proof.
  intros Hsp. exists (<[sp := OSpace []]> h).
  assert (Hnew : (<[sp := OSpace []]> h : heap) !! sp = Some (OSpace []))
    by apply lookup_insert_eq.
  split; [unfold Clear; rewrite Hsp; reflexivity|].
  split; [exact Hnew|]. split.
  - intros r Hr. apply lookup_insert_ne. congruence.
  - intros fuel shape dx dy x y. unfold SetXY. simpl. rewrite Hnew.
    repeat split; reflexivity.
Qed.

Lemma X5_Clear_empties_witness :
  exists h',
    Clear three_in_space 4%nat = (h', None) /\
    IsColliding 1 h' 4%nat 1%nat = Ret (false, []) /\
    GetXY 1 h' 4%nat = Ret (0, 0) /\
    h' !! 1%nat = three_in_space !! 1%nat.
Proof.
  destruct (X5_Clear_empties three_in_space 4%nat [1%nat; 2%nat; 3%nat])
    as (h' & Hclear & _ & Hframe & Hempty); [reflexivity|].
  exists h'. split; [exact Hclear|].
  destruct (Hempty 0%nat 1%nat 0 0 0 0) as (Hcol & _ & Hxy & _).
  split; [exact Hcol|]. split; [exact Hxy|]. apply Hframe. discriminate.
Defined.

(** ** Filter and the tag filters *)

Lemma NewSpace_fresh (h : heap) : h !! fresh (dom h) = None.
Proof. apply not_elem_of_dom, is_fresh. Qed.

Lemma Filter_loop_spec (filterFunc : ref -> bool) (sub : ref) (sp : list ref) :
  forall (h : heap) (acc : list ref),
    sub ∉ sp ->
    h !! sub = Some (OSpace acc) ->
    Filter_loop filterFunc h sub sp =
    (<[sub := OSpace (acc ++ List.filter filterFunc sp)]> h, None).
Proof.
  induction sp as [|shape rest IH]; intros h acc Hnotin Hsub.
  - simpl. rewrite app_nil_r, insert_id by exact Hsub. reflexivity.
  - apply not_elem_of_cons in Hnotin as [Hne Hnotin]. simpl.
    destruct (filterFunc shape).
    + rewrite decide_False by congruence. rewrite Hsub.
      rewrite (IH _ (acc ++ [shape])) by (try apply lookup_insert_eq; assumption).
      rewrite insert_insert_eq, <- app_assoc. reflexivity.
    + apply IH; assumption.
Qed.

Lemma Filter_spec (h : heap) (sp : ref) (members : list ref) (filterFunc : ref -> bool) :
  h !! sp = Some (OSpace members) ->
  (forall x, x ∈ members -> is_Some (h !! x)) ->
  Filter h sp filterFunc =
  (<[fresh (dom h) := OSpace (List.filter filterFunc members)]> h, fresh (dom h), None).
Proof.
  intros Hsp Hlive. unfold Filter, NewSpace. rewrite Hsp.
  rewrite (Filter_loop_spec filterFunc (fresh (dom h)) members _ []).
  - rewrite insert_insert_eq. reflexivity.
  - intros Hin. destruct (Hlive _ Hin) as [o Ho].
    rewrite NewSpace_fresh in Ho. discriminate.
  - apply lookup_insert_eq.
Qed.

(** X7: [Filter] on a Space without nil members returns, without a
    panic, a new Space at an address that was free; it holds exactly the
    members that pass the filter, in their order and as often as they
    occur, and the Space filtered and every other object stay as they
    were. *)
Theorem X7_Filter_keeps_passing_members (h : heap) (sp : ref) (members : list ref)
    (filterFunc : ref -> bool) :
  h !! sp = Some (OSpace members) ->
  (forall x, x ∈ members -> is_Some (h !! x)) ->
  exists h' subSpace,
    Filter h sp filterFunc = (h', subSpace, None) /\
    h !! subSpace = None /\
    h' !! subSpace = Some (OSpace (List.filter filterFunc members)) /\
    (forall r, r <> subSpace -> h' !! r = h !! r) /\
    (forall x, Contains (List.filter filterFunc members) x = true <->
               Contains members x = true /\ filterFunc x = true).
Proof.
  intros Hsp Hlive. eexists _, _.
  split; [apply (Filter_spec h sp members filterFunc Hsp Hlive)|].
  split; [apply NewSpace_fresh|]. split; [apply lookup_insert_eq|]. split.
  - intros r Hr. apply lookup_insert_ne. congruence.
  - intros x. rewrite !Contains_elem. split.
    + intros Hin. apply list_elem_of_In, filter_In in Hin as [Hin Hf].
      split; [apply list_elem_of_In, Hin | exact Hf].
    + intros [Hin Hf]. apply list_elem_of_In, filter_In.
      split; [apply list_elem_of_In, Hin | exact Hf].
Qed.

Lemma X7_Filter_keeps_passing_members_witness :
  exists h' subSpace,
    Filter three_in_space 4%nat Nat.odd = (h', subSpace, None) /\
    h' !! subSpace = Some (OSpace [1%nat; 3%nat]) /\
    h' !! 4%nat = three_in_space !! 4%nat.
Proof.
  destruct (X7_Filter_keeps_passing_members three_in_space 4%nat
              [1%nat; 2%nat; 3%nat] Nat.odd)
    as (h' & subSpace & Hrun & Hfree & Hsub & Hframe & _).
  - reflexivity.
  - intros x Hx.
    apply elem_of_cons in Hx as [->|Hx]; [eexists; reflexivity|].
    apply elem_of_cons in Hx as [->|Hx]; [eexists; reflexivity|].
    apply elem_of_cons in Hx as [->|Hx]; [eexists; reflexivity|].
    apply elem_of_nil in Hx. destruct Hx.
  - exists h', subSpace. split; [exact Hrun|]. split; [exact Hsub|].
    apply Hframe. intros <-. discriminate Hfree.
Defined.

Section TagFilters.
Variable tag : Type.
Variable HasTags : ref -> list tag -> bool.
Variables (h : heap) (sp : ref) (members : list ref) (tags : list tag).
Hypothesis Hsp : h !! sp = Some (OSpace members).
Hypothesis Hlive : forall x, x ∈ members -> is_Some (h !! x).

Lemma FilterByTags_spec :
  FilterByTags tag HasTags h sp tags =
  (<[fresh (dom h) := OSpace (List.filter (fun s => HasTags s tags) members)]> h,
   fresh (dom h), None).
Proof.
  unfold FilterByTags. rewrite (Filter_spec h sp members _ Hsp Hlive).
  rewrite (filter_ext (fun s => if HasTags s tags then true else false)
             (fun s => HasTags s tags)); [reflexivity|].
  intros s. destruct (HasTags s tags); reflexivity.
Qed.

Lemma FilterOutByTags_spec :
  FilterOutByTags tag HasTags h sp tags =
  (<[fresh (dom h) := OSpace (List.filter (fun s => negb (HasTags s tags)) members)]> h,
   fresh (dom h), None).
Proof.
  unfold FilterOutByTags. rewrite (Filter_spec h sp members _ Hsp Hlive).
  rewrite (filter_ext (fun s => if HasTags s tags then false else true)
             (fun s => negb (HasTags s tags))); [reflexivity|].
  intros s. destruct (HasTags s tags); reflexivity.
Qed.

Lemma Space_HasTags_forallb (l : list ref) :
  Space_HasTags tag HasTags l tags = forallb (fun s => HasTags s tags) l.
Proof.
  induction l as [|s rest IH]; simpl; [reflexivity|].
  destruct (HasTags s tags); simpl; [exact IH | reflexivity].
Qed.
End TagFilters.

Lemma filter_partition_length (f : ref -> bool) (l : list ref) :
  Length (List.filter f l) + Length (List.filter (fun s => negb (f s)) l) = Length l.
Proof.
  unfold Length. induction l as [|s rest IH]; simpl; [reflexivity|].
  destruct (f s); simpl; lia.
Qed.

Lemma filter_negb_nil (f : ref -> bool) (l : list ref) :
  List.filter (fun s => negb (f s)) l = [] <-> forallb f l = true.
Proof.
  induction l as [|s rest IH]; simpl; [tauto|].
  destruct (f s); simpl; [exact IH|]. split; discriminate.
Qed.

Lemma filter_all (f : ref -> bool) (l : list ref) :
  forallb f l = true -> List.filter f l = l.
Proof.
  induction l as [|s rest IH]; simpl; [reflexivity|].
  destruct (f s); simpl; [|discriminate]. intros Hrest. rewrite (IH Hrest). reflexivity.
Qed.

(** X8: [FilterByTags] and [FilterOutByTags] split a Space without nil
    members in two: the first keeps exactly the members that have the
    tags, the second exactly those that do not, and the two lengths add
    up to the length of the Space. *)
Theorem X8_tag_filters_partition (tag : Type) (HasTags : ref -> list tag -> bool)
    (h : heap) (sp : ref) (members : list ref) (tags : list tag) :
  h !! sp = Some (OSpace members) ->
  (forall x, x ∈ members -> is_Some (h !! x)) ->
  exists subSpace kept dropped,
    FilterByTags tag HasTags h sp tags = (<[subSpace := OSpace kept]> h, subSpace, None) /\
    FilterOutByTags tag HasTags h sp tags
      = (<[subSpace := OSpace dropped]> h, subSpace, None) /\
    (forall x, x ∈ kept <-> x ∈ members /\ HasTags x tags = true) /\
    (forall x, x ∈ dropped <-> x ∈ members /\ HasTags x tags = false) /\
    Length kept + Length dropped = Length members.
Proof.
  intros Hsp Hlive.
  exists (fresh (dom h)), (List.filter (fun s => HasTags s tags) members),
    (List.filter (fun s => negb (HasTags s tags)) members).
  split; [apply FilterByTags_spec; assumption|].
  split; [apply FilterOutByTags_spec; assumption|].
  split; [|split].
  - intros x. rewrite !list_elem_of_In. apply filter_In.
  - intros x. rewrite !list_elem_of_In, filter_In, negb_true_iff. reflexivity.
  - apply filter_partition_length.
Qed.

Lemma X8_tag_filters_partition_witness :
  exists subSpace kept dropped,
    FilterByTags nat (fun s tags => Nat.odd s) three_in_space 4%nat [0%nat]
      = (<[subSpace := OSpace kept]> three_in_space, subSpace, None) /\
    FilterOutByTags nat (fun s tags => Nat.odd s) three_in_space 4%nat [0%nat]
      = (<[subSpace := OSpace dropped]> three_in_space, subSpace, None) /\
    (3%nat ∈ kept /\ 2%nat ∈ dropped) /\
    Length kept + Length dropped = 3.
Proof.
  destruct (X8_tag_filters_partition nat (fun s tags => Nat.odd s) three_in_space
              4%nat [1%nat; 2%nat; 3%nat] [0%nat])
    as (subSpace & kept & dropped & Hby & Hout & Hkept & Hdropped & Hlen).
  - reflexivity.
  - intros x Hx.
    apply elem_of_cons in Hx as [->|Hx]; [eexists; reflexivity|].
    apply elem_of_cons in Hx as [->|Hx]; [eexists; reflexivity|].
    apply elem_of_cons in Hx as [->|Hx]; [eexists; reflexivity|].
    apply elem_of_nil in Hx. destruct Hx.
  - exists subSpace, kept, dropped.
    split; [exact Hby|]. split; [exact Hout|]. split; [|exact Hlen]. split.
    + apply Hkept. split; [|reflexivity].
      apply list_elem_of_further, list_elem_of_further, list_elem_of_here.
    + apply Hdropped. split; [|reflexivity].
      apply list_elem_of_further, list_elem_of_here.
Defined.

(** X9: [Space.HasTags] holds exactly when every member has the tags, so
    it holds for an empty Space; it holds exactly when [FilterOutByTags]
    returns an empty Space, and then [FilterByTags] returns a copy of the
    whole Space. *)
Theorem X9_HasTags_and_filters (tag : Type) (HasTags : ref -> list tag -> bool)
    (h : heap) (sp : ref) (members : list ref) (tags : list tag) :
  h !! sp = Some (OSpace members) ->
  (forall x, x ∈ members -> is_Some (h !! x)) ->
  (Space_HasTags tag HasTags members tags = true <->
   forall x, x ∈ members -> HasTags x tags = true) /\
  (Space_HasTags tag HasTags members tags = true <->
   FilterOutByTags tag HasTags h sp tags
   = (<[fresh (dom h) := OSpace []]> h, fresh (dom h), None)) /\
  (Space_HasTags tag HasTags members tags = true ->
   FilterByTags tag HasTags h sp tags
   = (<[fresh (dom h) := OSpace members]> h, fresh (dom h), None)).
Proof.
  intros Hsp Hlive. rewrite Space_HasTags_forallb.
  rewrite (FilterOutByTags_spec tag HasTags h sp members tags Hsp Hlive).
  rewrite (FilterByTags_spec tag HasTags h sp members tags Hsp Hlive).
  split; [|split].
  - rewrite forallb_forall. split; intros Hall x Hx; apply Hall, list_elem_of_In, Hx.
  - rewrite <- (filter_negb_nil (fun s => HasTags s tags) members). split.
    + intros ->. reflexivity.
    + intros Heq. injection Heq as Heq.
      apply (f_equal (fun m : heap => m !! fresh (dom h))) in Heq.
      rewrite !lookup_insert_eq in Heq. congruence.
  - intros Hall. rewrite (filter_all _ _ Hall). reflexivity.
Qed.

Lemma X9_HasTags_and_filters_witness :
  Space_HasTags nat (fun s tags => Nat.ltb 0 s) [1%nat; 2%nat; 3%nat] [0%nat] = true /\
  FilterOutByTags nat (fun s tags => Nat.ltb 0 s) three_in_space 4%nat [0%nat]
  = (<[fresh (dom three_in_space) := OSpace []]> three_in_space,
     fresh (dom three_in_space), None).
Proof.
  destruct (X9_HasTags_and_filters nat (fun s tags => Nat.ltb 0 s) three_in_space
              4%nat [1%nat; 2%nat; 3%nat] [0%nat]) as (_ & Hout & _).
  - reflexivity.
  - intros x Hx.
    apply elem_of_cons in Hx as [->|Hx]; [eexists; reflexivity|].
    apply elem_of_cons in Hx as [->|Hx]; [eexists; reflexivity|].
    apply elem_of_cons in Hx as [->|Hx]; [eexists; reflexivity|].
    apply elem_of_nil in Hx. destruct Hx.
  - split; [reflexivity|]. apply Hout. reflexivity.
Defined.

(** ** Collision tests with a Circle as the tested shape *)









(** ** GetCollidingShapes *)

Lemma Space_IsColliding_ext call call' (shape : ref) (sp : list ref) :
  (forall m, m ∈ sp -> call shape m = call' shape m) ->
  Space_IsColliding call sp shape = Space_IsColliding call' sp shape.
Proof.
  induction sp as [|other rest IH]; intros Hext; [reflexivity|].
  simpl. rewrite IH by (intros m Hm; apply Hext, list_elem_of_further, Hm).
  destruct (decide (other = shape)); [reflexivity|].
  rewrite (Hext other (list_elem_of_here _ _)). reflexivity.
Qed.

(** Allocating an object at a free address does not change a collision
    test between shapes that were there before. *)
Lemma IsColliding_alloc (h : heap) (r : ref) (o : object) :
  closed h -> h !! r = None ->
  forall fuel a b, a <> r -> b <> r ->
    IsColliding fuel (<[r := o]> h) a b = IsColliding fuel h a b.
Proof.
  intros Hclosed Hfree. induction fuel as [|fuel IH]; intros a b Ha Hb; [reflexivity|].
  rewrite !IsColliding_S. rewrite lookup_insert_ne by congruence.
  destruct (h !! a) as [[c|rt|l|sp| |[| | |]]|] eqn:Hlook; try reflexivity.
  - unfold Circle_IsColliding. rewrite lookup_insert_ne by congruence.
    destruct (h !! b) as [[c'|rt|l|sp| |[| | |]]|]; try reflexivity;
      apply IH; assumption.
  - apply Space_IsColliding_ext. intros m Hm. apply IH; [exact Hb|].
    intros ->. destruct (Hclosed a sp r Hlook Hm) as [x Hx]. congruence.
  - unfold nil_Circle_IsColliding. rewrite lookup_insert_ne by congruence.
    destruct (h !! b) as [[c'|rt|l|sp| |[| | |]]|]; try reflexivity;
      apply IH; assumption.
Qed.

Section CollidingShapes.
Variables (fuel : nat) (h : heap) (r shape : ref).
Hypothesis Hclosed : closed h.
Hypothesis Hfree : h !! r = None.
Hypothesis Hshape : shape <> r.

Lemma GetCollidingShapes_loop_spec (sp : list ref) :
  (forall x, x ∈ sp -> is_Some (h !! x)) ->
  (forall x, x ∈ sp -> x <> shape -> returns (IsColliding fuel h shape x)) ->
  forall acc, exists out,
    GetCollidingShapes_loop (IsColliding fuel) (<[r := OSpace acc]> h) r sp shape
    = Ret (<[r := OSpace (acc ++ colliding_members fuel h sp shape)]> h, out).
Proof.
  unfold colliding_members.
  induction sp as [|other rest IH]; intros Hlive Hret acc.
  - exists []. simpl. rewrite app_nil_r. reflexivity.
  - assert (Hlive1 : forall x, x ∈ rest -> is_Some (h !! x))
      by (intros x Hx; apply Hlive, list_elem_of_further, Hx).
    assert (Hret1 : forall x, x ∈ rest -> x <> shape ->
                              returns (IsColliding fuel h shape x))
      by (intros x Hx; apply Hret, list_elem_of_further, Hx).
    assert (Hother : other <> r).
    { intros ->. destruct (Hlive r (list_elem_of_here _ _)) as [x Hx]. congruence. }
    cbn [GetCollidingShapes_loop List.filter].
    destruct (decide (other = shape)) as [->|Hne]; [apply IH; assumption|].
    rewrite (IsColliding_alloc h r (OSpace acc) Hclosed Hfree fuel shape other Hshape Hother).
    unfold collides.
    destruct (Hret other (list_elem_of_here _ _) Hne) as [[colliding out] ->].
    unfold mbind, result_bind. destruct colliding.
    + cbn [Add]. rewrite decide_False by exact Hother.
      rewrite lookup_insert_eq, insert_insert_eq.
      destruct (IH Hlive1 Hret1 (acc ++ [other])) as [out1 ->].
      exists (out ++ out1). rewrite <- app_assoc. reflexivity.
    + destruct (IH Hlive1 Hret1 acc) as [out1 ->].
      exists (out ++ out1). reflexivity.
Qed.

Lemma Space_IsColliding_hits (sp : list ref) :
  (forall x, x ∈ sp -> x <> shape -> returns (IsColliding fuel h shape x)) ->
  exists colliding out,
    Space_IsColliding (IsColliding fuel h) sp shape = Ret (colliding, out) /\
    (colliding = true <-> colliding_members fuel h sp shape <> []).
Proof.
  unfold colliding_members.
  induction sp as [|other rest IH]; intros Hret.
  - exists false, []. split; [reflexivity|].
    split; [discriminate | intros Hne; destruct Hne; reflexivity].
  - destruct IH as (b & out1 & Hrest & Hiff).
    { intros x Hx. apply Hret, list_elem_of_further, Hx. }
    cbn [Space_IsColliding List.filter].
    destruct (decide (other = shape)) as [->|Hne].
    + exists b, out1. split; [exact Hrest | exact Hiff].
    + unfold collides.
      destruct (Hret other (list_elem_of_here _ _) Hne) as [[colliding out] ->].
      unfold mbind, result_bind. destruct colliding.
      * exists true, out. split; [reflexivity|]. split; [discriminate | reflexivity].
      * rewrite Hrest. exists b, (out ++ out1). split; [reflexivity | exact Hiff].
Qed.
End CollidingShapes.

(** X12: in a heap without nil members and nil pointers,
    [GetCollidingShapes] of a Space whose members are nested at most [n]
    deep, called for a Circle, returns a new Space at an address that was
    free; it holds, in their order, exactly the members other than the
    circle itself that the circle collides with, the Space searched and
    every other object stay as they were, and [IsColliding] of the Space
    answers true exactly when that new Space is not empty. *)
Theorem X12_GetCollidingShapes_collects (n fuel : nat) (h : heap) (sp shape : ref)
    (members : list ref) (c : Circle) :
  closed h ->
  no_nil_pointers h ->
  h !! sp = Some (OSpace members) ->
  h !! shape = Some (OCircle c) ->
  (forall x, x ∈ members -> nesting_le h n x) ->
  (2 * n + 1 <= fuel)%nat ->
  exists h1 newSpace out colliding out1,
    GetCollidingShapes fuel h sp shape = Ret (h1, newSpace, out) /\
    h !! newSpace = None /\
    h1 !! newSpace = Some (OSpace (colliding_members fuel h members shape)) /\
    (forall x, x <> newSpace -> h1 !! x = h !! x) /\
    (shape ∉ colliding_members fuel h members shape) /\
    IsColliding (S fuel) h sp shape = Ret (colliding, out1) /\
    (colliding = true <-> colliding_members fuel h members shape <> []).
Proof.
  intros Hclosed Hnil Hsp Hshape Hnest Hfuel.
  assert (Hret : forall x, x ∈ members -> x <> shape ->
                   returns (IsColliding fuel h shape x)).
  { intros x Hx _.
    apply (IsColliding_circle_returns h shape c n x Hnil Hshape (Hnest x Hx) fuel Hfuel). }
  assert (Hfree : h !! fresh (dom h) = None) by apply NewSpace_fresh.
  assert (Hne : shape <> fresh (dom h)) by (intros Heq; congruence).
  destruct (GetCollidingShapes_loop_spec fuel h (fresh (dom h)) shape
              Hclosed Hfree Hne members) with (acc := @nil ref) as [out Hloop].
  { intros x Hx. exact (Hclosed sp members x Hsp Hx). }
  { exact Hret. }
  destruct (Space_IsColliding_hits fuel h shape members Hret)
    as (colliding & out1 & Hcol & Hiff).
  exists (<[fresh (dom h) := OSpace (colliding_members fuel h members shape)]> h),
    (fresh (dom h)), out, colliding, out1.
  split; [|split; [exact Hfree|split; [apply lookup_insert_eq|split; [|split; [|split]]]]].
  - unfold GetCollidingShapes, NewSpace. rewrite Hsp, Hloop. reflexivity.
  - intros x Hx. apply lookup_insert_ne. congruence.
  - unfold colliding_members. intros Hin.
    apply list_elem_of_In, filter_In in Hin as [_ Hin].
    rewrite decide_True in Hin by reflexivity. discriminate.
  - rewrite IsColliding_S, Hsp. exact Hcol.
  - exact Hiff.
Qed.

Lemma three_in_space_closed : closed three_in_space.
Proof.
  intros s members x Hs Hx.
  assert (Hmembers : members = [1%nat; 2%nat; 3%nat]).
  { unfold three_in_space in Hs.
    repeat (apply lookup_insert_Some in Hs as [[_ Hs]|[_ Hs]]; [discriminate Hs|]).
    apply lookup_singleton_Some in Hs as [_ Hs]. congruence. }
  subst members.
  apply elem_of_cons in Hx as [->|Hx]; [eexists; reflexivity|].
  apply elem_of_cons in Hx as [->|Hx]; [eexists; reflexivity|].
  apply elem_of_cons in Hx as [->|Hx]; [eexists; reflexivity|].
  apply elem_of_nil in Hx. destruct Hx.
Qed.

Lemma three_in_space_no_nil : no_nil_pointers three_in_space.
Proof.
  intros r t Hr. unfold three_in_space in Hr.
  repeat (apply lookup_insert_Some in Hr as [[_ Hr]|[_ Hr]]; [discriminate Hr|]).
  apply lookup_singleton_Some in Hr as [_ Hr]. discriminate Hr.
Qed.

(** In [three_in_space], the members of Space 4 that circle 2 collides
    with: circle 3 alone, circle 2 itself being skipped. *)
Lemma X12_GetCollidingShapes_collects_witness :
  exists h1 newSpace out,
    GetCollidingShapes 1 three_in_space 4%nat 2%nat = Ret (h1, newSpace, out) /\
    h1 !! newSpace = Some (OSpace [3%nat]) /\
    h1 !! 4%nat = three_in_space !! 4%nat.
Proof.
  destruct (X12_GetCollidingShapes_collects 0 1 three_in_space 4%nat 2%nat
              [1%nat; 2%nat; 3%nat] (NewCircle 100 0 1))
    as (h1 & newSpace & out & colliding & out1 & Hrun & Hfree & Hnew & Hframe & _).
  - exact three_in_space_closed.
  - exact three_in_space_no_nil.
  - reflexivity.
  - reflexivity.
  - intros x Hx. apply nesting_flat. intros sp.
    apply elem_of_cons in Hx as [->|Hx]; [discriminate|].
    apply elem_of_cons in Hx as [->|Hx]; [discriminate|].
    apply elem_of_cons in Hx as [->|Hx]; [discriminate|].
    apply elem_of_nil in Hx. destruct Hx.
  - lia.
  - exists h1, newSpace, out. split; [exact Hrun|]. split; [exact Hnew|].
    apply Hframe. intros <-. discriminate Hfree.
Defined.

(** ** The swept test leaves no trace *)









Lemma add_zero x : Int32.in_range x -> Int32.add x 0 = x.
Proof. intros Hx. unfold Int32.add. rewrite Z.add_0_r. apply wrap_in_range, Hx. Qed.

(** X14: for a Circle at int32 coordinates, the swept test with delta
    (0, 0) is the plain collision test: it returns exactly when
    [IsColliding] does, with the same answer and the same output. *)
Theorem X14_zero_delta_is_IsColliding (fuel : nat) (h : heap) (rc other : ref)
    (c : Circle) :
  h !! rc = Some (OCircle c) ->
  Int32.in_range (X c) -> Int32.in_range (Y c) ->
  WouldBeColliding (S fuel) h rc other 0 0 =
    ('(colliding, out) ← IsColliding fuel h rc other; Ret (colliding, h, out)).
Proof.
  intros Hc HX HY.
  rewrite (Circle_WouldBeColliding_eq fuel h rc other c 0 0 Hc HX HY).
  replace (mkCircle (offset c 0 0) (Radius c)) with c.
  - rewrite insert_id by exact Hc. reflexivity.
  - destruct c as [[x y] r]. unfold offset. simpl in *.
    rewrite !add_zero by assumption. reflexivity.
Qed.

Lemma X14_zero_delta_is_IsColliding_witness :
  WouldBeColliding 2 (two_circles 0 0 5 10 0 5) 1%nat 2%nat 0 0 =
  Ret (true, two_circles 0 0 5 10 0 5, []).
Proof.
  rewrite (X14_zero_delta_is_IsColliding 1 (two_circles 0 0 5 10 0 5) 1%nat 2%nat
             (NewCircle 0 0 5));
    [reflexivity | reflexivity | vm_compute; split; discriminate
    | vm_compute; split; discriminate].
Defined.

(** ** GetBoundingRect *)

Lemma square_le_bound (a r : Z) : 0 <= r -> a * a <= r * r -> - r <= a <= r.
Proof.
  intros Hr Hsq. rewrite <- Z.abs_square in Hsq.
  destruct (Z_le_gt_dec (Z.abs a) r) as [Hle|Hgt]; [lia|].
  assert (r * r < Z.abs a * Z.abs a) by (apply Z.mul_lt_mono_nonneg; lia). lia.
Qed.

(** X15: when the radius is not negative and X - R, X + R, Y - R, Y + R
    and 2R are int32 values, the bounding rectangle is the square of side
    2R centred on the circle: every point within the radius of the centre
    lies in it, and the circle collides with it. *)
Theorem X15_GetBoundingRect_bounds (c : Circle) :
  0 <= Radius c ->
  Int32.in_range (X c - Radius c) -> Int32.in_range (X c + Radius c) ->
  Int32.in_range (Y c - Radius c) -> Int32.in_range (Y c + Radius c) ->
  Int32.in_range (Radius c * 2) ->
  X (GetBoundingRect c) = X c - Radius c /\
  Y (GetBoundingRect c) = Y c - Radius c /\
  W (GetBoundingRect c) = 2 * Radius c /\
  H (GetBoundingRect c) = 2 * Radius c /\
  (forall px py,
     (px - X c) * (px - X c) + (py - Y c) * (py - Y c) <= Radius c * Radius c ->
     X (GetBoundingRect c) <= px <= X (GetBoundingRect c) + W (GetBoundingRect c) /\
     Y (GetBoundingRect c) <= py <= Y (GetBoundingRect c) + H (GetBoundingRect c)) /\
  (forall fuel (h : heap) rc rr,
     h !! rc = Some (OCircle c) ->
     h !! rr = Some (ORectangle (GetBoundingRect c)) ->
     IsColliding (S fuel) h rc rr = Ret (true, [])).
Proof.
  intros HR HXlo HXhi HYlo HYhi H2R.
  assert (EX : X (GetBoundingRect c) = X c - Radius c)
    by (simpl; unfold Int32.sub; apply wrap_in_range; assumption).
  assert (EY : Y (GetBoundingRect c) = Y c - Radius c)
    by (simpl; unfold Int32.sub; apply wrap_in_range; assumption).
  assert (EW : W (GetBoundingRect c) = 2 * Radius c)
    by (simpl; unfold Int32.mul; rewrite wrap_in_range by assumption; lia).
  assert (EH : H (GetBoundingRect c) = 2 * Radius c)
    by (simpl; unfold Int32.mul; rewrite wrap_in_range by assumption; lia).
  repeat (split; [assumption|]). split.
  - intros px py Hin. rewrite EX, EY, EW, EH.
    pose proof (Z.square_nonneg (px - X c)). pose proof (Z.square_nonneg (py - Y c)).
    pose proof (square_le_bound (px - X c) (Radius c) HR ltac:(lia)).
    pose proof (square_le_bound (py - Y c) (Radius c) HR ltac:(lia)).
    lia.
  - intros fuel h rc rr Hc Hr. simpl IsColliding. rewrite Hc.
    unfold Circle_IsColliding. rewrite Hr.
    rewrite !closest_clamp; rewrite ?EX, ?EY, ?EW, ?EH;
      try lia;
      try (replace (X c - Radius c + 2 * Radius c) with (X c + Radius c) by lia;
           assumption);
      try (replace (Y c - Radius c + 2 * Radius c) with (Y c + Radius c) by lia;
           assumption).
    unfold clamp.
    replace (Z.max (X c - Radius c) (Z.min (X c) (X c - Radius c + 2 * Radius c)))
      with (X c) by lia.
    replace (Z.max (Y c - Radius c) (Z.min (Y c) (Y c - Radius c + 2 * Radius c)))
      with (Y c) by lia.
    rewrite Distance_self. f_equal. f_equal. apply Z.leb_le. exact HR.
Qed.

Lemma X15_GetBoundingRect_bounds_witness :
  GetBoundingRect (NewCircle 5 5 2) = NewRectangle 3 3 4 4 /\
  IsColliding 1
    (circle_and_rectangle (NewCircle 5 5 2) (GetBoundingRect (NewCircle 5 5 2)))
    1%nat 2%nat = Ret (true, []).
Proof.
  destruct (X15_GetBoundingRect_bounds (NewCircle 5 5 2))
    as (_ & _ & _ & _ & _ & Hcollides);
    [simpl; lia | vm_compute; split; discriminate | vm_compute; split; discriminate
    | vm_compute; split; discriminate | vm_compute; split; discriminate
    | vm_compute; split; discriminate |].
  split; [reflexivity|]. apply Hcollides; reflexivity.
Defined.

(** ** Circles of negative radius *)

Lemma SFdiv_not_negative (x y : spec_float) :
  Float64.not_negative x = true ->
  y = S754_zero false \/ (exists m e, y = S754_finite false m e) ->
  Float64.not_negative (SF64div x y) = true.
Proof.
  intros Hx [-> | (m & e & ->)]; unfold SF64div, SFdiv.
  - destruct x as [s|[|]| |[|] mx ex]; try discriminate; reflexivity.
  - destruct x as [s|[|]| |[|] mx ex]; try discriminate; try reflexivity.
    destruct (SFdiv_core_binary prec emax (Zpos mx) ex (Zpos m) e) as [[mz ez] lz].
    apply FloatFacts.round_aux_not_negative.
Qed.

Lemma of_int_nonneg_class (z : Z) :
  0 <= z < 2 ^ 53 ->
  Prim2SF (Float64.of_int z) = S754_zero false \/
  (exists m e, Prim2SF (Float64.of_int z) = S754_finite false m e).
Proof.
  intros Hz. rewrite FloatFacts.Prim2SF_of_int by lia.
  destruct z as [|p|p]; [left; reflexivity| |lia].
  destruct (FloatFacts.normalize_small false p) as (m & e & -> & _); [lia|].
  right. exists m, e. reflexivity.
Qed.

Lemma leb_negative (x : float) (z : Z) :
  Float64.not_negative (Prim2SF x) = true ->
  - 2 ^ 53 < z < 0 ->
  PrimFloat.leb x (Float64.of_int z) = false.
Proof.
  intros Hx Hz. rewrite FloatAxioms.leb_spec, FloatFacts.Prim2SF_of_int by lia.
  destruct z as [|p|p]; [lia|lia|].
  destruct (FloatFacts.normalize_small false p) as (m & e & -> & _); [lia|].
  simpl SFopp.
  destruct (Prim2SF x) as [s|[|]| |[|] mx ex]; try discriminate; reflexivity.
Qed.

Lemma height_not_negative (ac cb : float) (len : Z) :
  0 <= len < 2 ^ 53 ->
  Float64.not_negative (Prim2SF (Triangle.height ac cb (Float64.of_int len))) = true.
Proof.
  intros Hlen. unfold Triangle.height.
  rewrite FloatAxioms.div_spec, FloatAxioms.mul_spec, FloatAxioms.sqrt_spec.
  apply SFdiv_not_negative; [|apply of_int_nonneg_class, Hlen].
  apply FloatFacts.twice_not_negative, FloatFacts.SFsqrt_not_negative.
Qed.

(** X16: a Circle whose radius is negative collides with no Rectangle and
    with no Line: against a Rectangle the distance to the nearest point
    is never below zero, against a Line no endpoint is within the radius
    and the altitude h, zero, positive or NaN, is never at most a
    negative radius. *)
Theorem X16_negative_radius_is_inert (fuel : nat) (h : heap) (rc other : ref)
    (c : Circle) :
  h !! rc = Some (OCircle c) ->
  Radius c < 0 ->
  (forall r, h !! other = Some (ORectangle r) ->
     IsColliding (S fuel) h rc other = Ret (false, [])) /\
  (forall l, h !! other = Some (OLine l) ->
     Circle_in_range c -> Line_in_range l ->
     IsColliding (S fuel) h rc other = Ret (false, [])).
Proof.
  intros Hc Hneg. split.
  - intros r Hr. simpl. rewrite Hc. unfold Circle_IsColliding. rewrite Hr.
    f_equal. f_equal. apply Z.leb_gt.
    match goal with |- _ < Distance ?a ?b ?x ?y =>
      pose proof (Distance_nonneg a b x y) end. lia.
  - intros l Hl Hcr Hlr. simpl. rewrite Hc. unfold Circle_IsColliding. rewrite Hl.
    f_equal. f_equal. unfold isCollidingWithLine.
    rewrite (endpointInside_spec c l Hcr Hlr).
    pose proof (Distance_nonneg (X c) (Y c) (X l) (Y l)).
    pose proof (Distance_nonneg (X c) (Y c) (X2 l) (Y2 l)).
    replace (Distance (X c) (Y c) (X l) (Y l) <=? Radius c) with false
      by (symmetry; apply Z.leb_gt; lia).
    replace (Distance (X c) (Y c) (X2 l) (Y2 l) <=? Radius c) with false
      by (symmetry; apply Z.leb_gt; lia).
    simpl orb. cbv iota.
    rewrite leb_negative; [reflexivity| |].
    + apply height_not_negative. unfold GetLength.
      destruct Hlr as (HlX & HlY & HlX2 & HlY2). apply Distance_small; assumption.
    + destruct Hcr as (_ & _ & HR). apply in_range_small in HR. lia.
Qed.

Lemma X16_negative_radius_is_inert_witness :
  IsColliding 1 (circle_and_rectangle (NewCircle 5 5 (-1)) (NewRectangle 0 0 10 10))
    1%nat 2%nat = Ret (false, []) /\
  IsColliding 1 (circle_and_line (NewCircle 0 0 (-1)) (NewLine (-5) 0 5 0))
    1%nat 2%nat = Ret (false, []).
Proof.
  split.
  - destruct (X16_negative_radius_is_inert 0
                (circle_and_rectangle (NewCircle 5 5 (-1)) (NewRectangle 0 0 10 10))
                1%nat 2%nat (NewCircle 5 5 (-1))) as [Hrect _];
      [reflexivity | reflexivity |].
    apply (Hrect (NewRectangle 0 0 10 10)). reflexivity.
  - destruct (X16_negative_radius_is_inert 0
                (circle_and_line (NewCircle 0 0 (-1)) (NewLine (-5) 0 5 0))
                1%nat 2%nat (NewCircle 0 0 (-1))) as [_ Hline];
      [reflexivity | reflexivity |].
    apply (Hline (NewLine (-5) 0 5 0));
      [reflexivity | vm_compute; repeat split; discriminate
      | vm_compute; repeat split; discriminate].
Defined.

(** ** Space.Move *)

Lemma add_opp_cancel x d : Int32.in_range x -> Int32.add (Int32.add x d) (- d) = x.
Proof.
  intros Hx. rewrite <- (sub_add_cancel x d Hx) at 2.
  unfold Int32.add, Int32.sub. rewrite Z.add_opp_r. reflexivity.
Qed.

Lemma Move_Space_unfold (fuel : nat) (h : heap) (sp : ref) (members : list ref) dx dy :
  h !! sp = Some (OSpace members) ->
  Move (S fuel) h sp dx dy =
  Space_Move (fun h0 shape => Move fuel h0 shape dx dy) h members.
Proof. intros Hsp. simpl. rewrite Hsp. reflexivity. Qed.

(** X17: [Move] of a Space whose members are pairwise distinct circles,
    rectangles or lines moves each member once, by (dx, dy) in int32
    arithmetic; moving back by (-dx, -dy) puts every member whose
    position was a pair of int32 where it was. *)
Theorem X17_Move_and_back (fuel : nat) (h : heap) (sp : ref) (members : list ref)
    (dx dy : Z) :
  h !! sp = Some (OSpace members) ->
  NoDup members ->
  (forall m, m ∈ members ->
     exists x y, position h m = Some (x, y) /\ Int32.in_range x /\ Int32.in_range y) ->
  exists h1 h2,
    Move (S (S fuel)) h sp dx dy = Ret h1 /\
    Move (S (S fuel)) h1 sp (- dx) (- dy) = Ret h2 /\
    (forall m, m ∈ members ->
       position h1 m = shift dx dy <$> position h m /\
       position h2 m = position h m).
Proof.
  intros Hsp Hnodup Hpos.
  assert (Hall : Forall (fun r => is_Some (position h r)) members).
  { apply Forall_forall. intros m Hm. destruct (Hpos m Hm) as (x & y & -> & _).
    eexists. reflexivity. }
  assert (Hspout : sp ∉ members).
  { intros Hm. destruct (Hpos sp Hm) as (x & y & Hp & _).
    unfold position in Hp. rewrite Hsp in Hp. discriminate. }
  destruct (Space_Move_distinct fuel dx dy members Hnodup h Hall)
    as (h1 & Hrun1 & Hin1 & Hout1).
  assert (Hall1 : Forall (fun r => is_Some (position h1 r)) members).
  { apply Forall_forall. intros m Hm. rewrite (Hin1 m Hm).
    destruct (Hpos m Hm) as (x & y & -> & _). eexists. reflexivity. }
  destruct (Space_Move_distinct fuel (- dx) (- dy) members Hnodup h1 Hall1)
    as (h2 & Hrun2 & Hin2 & Hout2).
  exists h1, h2. split; [|split].
  - rewrite (Move_Space_unfold (S fuel) h sp members dx dy Hsp). exact Hrun1.
  - rewrite (Move_Space_unfold (S fuel) h1 sp members (- dx) (- dy)); [exact Hrun2|].
    rewrite (Hout1 sp Hspout). exact Hsp.
  - intros m Hm. split; [apply Hin1, Hm|].
    rewrite (Hin2 m Hm), (Hin1 m Hm).
    destruct (Hpos m Hm) as (x & y & -> & Hx & Hy). simpl. unfold shift. simpl.
    rewrite !add_opp_cancel by assumption. reflexivity.
Qed.

Lemma X17_Move_and_back_witness :
  exists h1 h2,
    Move 2 circle_then_rectangle 3%nat 4 (- 1) = Ret h1 /\
    Move 2 h1 3%nat (- 4) (- - 1) = Ret h2 /\
    position h1 2%nat = Some (14, 19) /\
    position h2 2%nat = Some (10, 20).
Proof.
  destruct (X17_Move_and_back 0 circle_then_rectangle 3%nat [1%nat; 2%nat] 4 (- 1))
    as (h1 & h2 & Hrun1 & Hrun2 & Hpos).
  - reflexivity.
  - apply NoDup_cons. split.
    + intros Hin. apply elem_of_cons in Hin as [Hin|Hin]; [discriminate|].
      apply elem_of_nil in Hin. exact Hin.
    + apply NoDup_cons. split; [|apply NoDup_nil_2].
      intros Hin. apply elem_of_nil in Hin. exact Hin.
  - intros m Hm.
    apply elem_of_cons in Hm as [->|Hm];
      [exists 1, 2; split; [reflexivity|]; vm_compute; repeat split; discriminate|].
    apply elem_of_cons in Hm as [->|Hm];
      [exists 10, 20; split; [reflexivity|]; vm_compute; repeat split; discriminate|].
    apply elem_of_nil in Hm. destruct Hm.
  - exists h1, h2. split; [exact Hrun1|]. split; [exact Hrun2|].
    destruct (Hpos 2%nat) as [Hmoved Hback];
      [apply list_elem_of_further, list_elem_of_here|].
    split; [rewrite Hmoved; reflexivity | rewrite Hback; reflexivity].
Defined.

(** ** The swept test of a Space of circles *)




(** ** SetXY twice *)

Lemma add_sub_diag a b x : Int32.add (Int32.add a b) (Int32.sub x x) = Int32.add a b.
Proof.
  unfold Int32.sub. rewrite Z.sub_diag. change (Int32.wrap 0) with 0.
  exact (add_zero _ (wrap_range (a + b))).
Qed.

(** X19: [SetXY] is idempotent on a Space whose members are pairwise
    distinct circles, rectangles or lines: both calls return, and the
    second call with the same int32 target leaves every member where the
    first call put it. *)
Theorem X19_SetXY_idempotent (fuel : nat) (h : heap) (sp root : ref)
    (rest : list ref) (x y : Z) :
  h !! sp = Some (OSpace (root :: rest)) ->
  NoDup (root :: rest) ->
  Forall (fun r => is_Some (position h r)) (root :: rest) ->
  Int32.in_range x -> Int32.in_range y ->
  exists h1 h2,
    SetXY (S (S fuel)) h sp x y = Ret h1 /\
    SetXY (S (S fuel)) h1 sp x y = Ret h2 /\
    (forall m, m ∈ root :: rest -> position h2 m = position h1 m).
Proof.
  intros Hsp Hnodup Hall Hx Hy.
  assert (Hspout : sp ∉ root :: rest).
  { intros Hmem. rewrite Forall_forall in Hall. destruct (Hall sp Hmem) as [p Hp].
    unfold position in Hp. rewrite Hsp in Hp. discriminate. }
  destruct (Forall_cons_1 _ _ _ Hall) as [[[x0 y0] Hroot] _].
  destruct (Space_Move_distinct (S fuel) (Int32.sub x x0) (Int32.sub y y0)
              (root :: rest) Hnodup h Hall) as (h1 & Hrun1 & Hin1 & Hout1).
  assert (Hsp1 : h1 !! sp = Some (OSpace (root :: rest)))
    by (rewrite (Hout1 sp Hspout); exact Hsp).
  assert (Hroot1 : position h1 root = Some (x, y)).
  { rewrite (Hin1 root) by apply list_elem_of_here. rewrite Hroot. simpl.
    unfold shift. simpl. rewrite !add_sub_cancel by assumption. reflexivity. }
  assert (Hall1 : Forall (fun r => is_Some (position h1 r)) (root :: rest)).
  { apply Forall_forall. intros m Hm. rewrite (Hin1 m Hm).
    rewrite Forall_forall in Hall. destruct (Hall m Hm) as [p ->].
    eexists. reflexivity. }
  destruct (Space_Move_distinct (S fuel) (Int32.sub x x) (Int32.sub y y)
              (root :: rest) Hnodup h1 Hall1) as (h2 & Hrun2 & Hin2 & Hout2).
  assert (Hget : forall h0 p, h0 !! sp = Some (OSpace (root :: rest)) ->
                   position h0 root = Some p -> GetXY (S (S fuel)) h0 sp = Ret p).
  { intros h0 p Hsp0 Hp. simpl. rewrite Hsp0. apply (GetXY_position fuel h0 root p Hp). }
  exists h1, h2. split; [|split].
  - unfold SetXY. rewrite Hsp.
    change (0 <? length (root :: rest))%nat with true. cbv iota.
    rewrite (Hget h (x0, y0) Hsp Hroot). exact Hrun1.
  - unfold SetXY. rewrite Hsp1.
    change (0 <? length (root :: rest))%nat with true. cbv iota.
    rewrite (Hget h1 (x, y) Hsp1 Hroot1). exact Hrun2.
  - intros m Hm. rewrite (Hin2 m Hm), (Hin1 m Hm).
    rewrite Forall_forall in Hall. destruct (Hall m Hm) as [[xm ym] ->].
    simpl. unfold shift. simpl. rewrite !add_sub_diag. reflexivity.
Qed.

Lemma X19_SetXY_idempotent_witness :
  exists h1 h2,
    SetXY 2 circle_then_rectangle 3%nat 5 5 = Ret h1 /\
    SetXY 2 h1 3%nat 5 5 = Ret h2 /\
    position h2 2%nat = position h1 2%nat.
Proof.
  destruct (X19_SetXY_idempotent 0 circle_then_rectangle 3%nat 1%nat [2%nat] 5 5)
    as (h1 & h2 & Hrun1 & Hrun2 & Hsame).
  - reflexivity.
  - apply NoDup_cons. split.
    + intros Hin. apply elem_of_cons in Hin as [Hin|Hin]; [discriminate|].
      apply elem_of_nil in Hin. exact Hin.
    + apply NoDup_cons. split; [|apply NoDup_nil_2].
      intros Hin. apply elem_of_nil in Hin. exact Hin.
  - repeat apply Forall_cons_2; [eexists; reflexivity | eexists; reflexivity
                                | apply Forall_nil_2].
  - vm_compute. split; discriminate.
  - vm_compute. split; discriminate.
  - exists h1, h2. split; [exact Hrun1|]. split; [exact Hrun2|].
    apply Hsame, list_elem_of_further, list_elem_of_here.
Defined.
